(** * Coupled-oscillator sweeps: the two notebooks of
      [sync/explosive_sync], embedded and verified.

    The notebooks are NumPy programs over [float64] arrays.  Every function
    is embedded once, generically over an interface [Arith] of the scalar
    operations the source uses (no algebraic law is assumed, so each
    definition fixes the order in which the source applies the
    operations), together with an interface [Libm] for the transcendental
    functions.  Two instances are given: IEEE binary64 (Rocq's primitive
    floats, the type the notebooks run on) and the real numbers (exact
    arithmetic, the mathematical reading of the formulas).

    Conventions of the embedding:
    - a one-dimensional array is a [list]; the 3xN state matrix of the
      Rossler model is a record of its three rows;
    - an array updated in place ([x0 += ...]) is passed and returned: the
      caller's binding is rebound to the returned contents;
    - shapes are assumed to agree and indices to be in range (what an NxN
      adjacency matrix guarantees); NumPy raises otherwise, the embedding
      truncates ([zip_with]) or reads the default [0];
    - [np.sum] is a left-to-right fold (NumPy's pairwise association is
      not modelled). *)

From Stdlib Require Import ZArith NArith Bool Lia Reals Lra Floats.
From stdpp Require Import base list sorting.

Set Default Proof Using "Type".

(** ** Scalars *)

Class Arith (A : Type) := {
  num_of_Z : Z -> A;
  num_add : A -> A -> A;
  num_sub : A -> A -> A;
  num_mul : A -> A -> A;
  num_div : A -> A -> A;
  num_neg : A -> A;
  num_le : A -> A -> bool;
  num_nonzero : A -> bool;
  num_sqrt : A -> A
}.

Class Libm (A : Type) := {
  num_cos : A -> A;
  num_sin : A -> A;
  num_arctan2 : A -> A -> A;
  num_hypot : A -> A -> A
}.

Declare Scope num_scope.
Delimit Scope num_scope with num.
Notation "x + y" := (num_add x y) : num_scope.
Notation "x - y" := (num_sub x y) : num_scope.
Notation "x * y" := (num_mul x y) : num_scope.
Notation "x / y" := (num_div x y) : num_scope.
Notation "- x" := (num_neg x) : num_scope.
Notation "x <=? y" := (num_le x y) : num_scope.
Notation "# z" := (num_of_Z z) (at level 9, format "# z") : num_scope.

(** A decimal literal [m / 10^k], such as [0.02 = dec 2 2].  Both
    operands are exact, so in binary64 the quotient is the correctly
    rounded literal. *)
Definition dec `{Arith A} (m : Z) (k : nat) : A :=
  (#m / #(10 ^ Z.of_nat k))%num.

#[global] Instance num_inhabited `{Arith A} : Inhabited A := populate (#0)%num.

(** ** Arrays *)

Section Arrays.
Context {A : Type} `{Arith A}.
Local Open Scope num_scope.

Definition zeros (n : nat) : list A := replicate n #0.
Definition ones (n : nat) : list A := replicate n #1.

(** array (op) array *)
Definition vadd (u v : list A) : list A := zip_with num_add u v.
Definition vsub (u v : list A) : list A := zip_with num_sub u v.
Definition vmul (u v : list A) : list A := zip_with num_mul u v.
Definition vdiv (u v : list A) : list A := zip_with num_div u v.
(** scalar (op) array, array (op) scalar *)
Definition smul (a : A) (v : list A) : list A := (fun x => a * x) <$> v.
Definition sadd (a : A) (v : list A) : list A := (fun x => a + x) <$> v.
Definition vsubs (v : list A) (a : A) : list A := (fun x => x - a) <$> v.
Definition vdivs (v : list A) (a : A) : list A := (fun x => x / a) <$> v.

(** [v[ids]] read, and [v[ids] = vals] written in index order. *)
Definition take_ids (v : list A) (ids : list nat) : list A :=
  (fun i => v !!! i) <$> ids.
Definition assign_ids (v : list A) (ids : list nat) (vals : list A) : list A :=
  fold_left (fun out iv => <[iv.1 := iv.2]> out) (zip ids vals) v.

(** [np.sum(v)] *)
Definition np_sum (v : list A) : A := fold_left num_add v #0.

(** [np.where(cond, a, b)] with a scalar [a]. *)
Definition np_where (cond : list bool) (a : A) (b : list A) : list A :=
  zip_with (fun (c : bool) bi => if c then a else bi) cond b.

(** [np.bincount(ids, weights=weights, minlength=minlength)]: the
    output has [max(minlength, max(ids)+1)] zero-initialised bins and
    the weights are added to their bins in index order. *)
Definition bincount (ids : list nat) (weights : list A) (minlength : nat)
  : list A :=
  let len := match ids with
             | [] => minlength
             | _ => Nat.max minlength (S (max_list ids))
             end in
  fold_left (fun out iw => alter (fun o => o + iw.2) iw.1 out)
            (zip ids weights) (zeros len).

(** [np.nonzero(M)] of a matrix: row and column indices of the
    non-zero entries, in row-major order. *)
Definition nonzero_row (i : nat) (row : list A) : list (nat * nat) :=
  (fun jx => (i, jx.1))
    <$> filter (fun jx => num_nonzero jx.2 = true) (imap pair row).
Definition nonzero (M : list (list A)) : list nat * list nat :=
  let es := mjoin (imap nonzero_row M) in (es.*1, es.*2).

(** [M.sum(axis=1)] *)
Definition sum_axis1 (M : list (list A)) : list A := np_sum <$> M.
End Arrays.

(** ** Complex numbers, as far as the order parameters use them *)

Record complex (A : Type) := Complex { re : A; im : A }.
Arguments Complex {A} _ _.
Arguments re {A} _.
Arguments im {A} _.

Section Complex.
Context {A : Type} `{Arith A} `{Libm A}.
Local Open Scope num_scope.

Definition cadd (a b : complex A) : complex A :=
  Complex (re a + re b) (im a + im b).
(** [np.exp(1j * phi)] *)
Definition cexpi (phi : A) : complex A := Complex (num_cos phi) (num_sin phi).
(** [np.sum] of a complex array *)
Definition csum (v : list (complex A)) : complex A :=
  fold_left cadd v (Complex #0 #0).
(** complex [/] real *)
Definition cdivr (a : complex A) (n : A) : complex A :=
  Complex (re a / n) (im a / n).
(** [np.abs] of a complex number *)
Definition cabs (a : complex A) : A := num_hypot (re a) (im a).
End Complex.

(** ** Integrators ([RK4] in both notebooks, [Heun] in the Kuramoto one)

    The integrators are generic in the array they advance: they need its
    [+] and its product with a scalar.  Each call of the vector field is
    recorded, in order, with the state and the time it was evaluated at:
    a computation returns its value and the list of these evaluations. *)

Class Ndarray (A V : Type) := {
  arr_add : V -> V -> V;
  arr_scale : A -> V -> V
}.

Definition Traced (V A X : Type) : Type := X * list (V * A).

Definition ret {V A X} (x : X) : Traced V A X := (x, []).
Definition bind {V A X Y} (m : Traced V A X) (f : X -> Traced V A Y)
  : Traced V A Y :=
  let r := f m.1 in (r.1, m.2 ++ r.2).
Definition call {V A} (f : V -> A -> V) (x : V) (t : A) : Traced V A V :=
  (f x t, [(x, t)]).

Notation "x <- m ;; k" := (bind m (fun x => k))
  (at level 20, m at level 99, k at level 200, only parsing).

Section Integrators.
Context {A V : Type} `{Arith A} `{Ndarray A V}.
Local Open Scope num_scope.
Local Infix "+^" := arr_add (at level 50, left associativity).
Local Infix "*^" := arr_scale (at level 40, left associativity).

(** [RK4(fun, x0, t, dt, *args)]; [fun_] is [fun] with [*args] applied.
    The value is the new contents of the array [x0] (the source updates
    it with [x0 += ...]; the Rossler notebook's copy also returns it,
    the Kuramoto notebook's copy returns nothing). *)
Definition RK4 (fun_ : V -> A -> V) (x0 : V) (t dt : A) : Traced V A V :=
  k1 <- call fun_ x0 t ;;
  k2 <- call fun_ (x0 +^ (dt / #2) *^ k1) (t + dt / #2) ;;
  k3 <- call fun_ (x0 +^ (dt / #2) *^ k2) (t + dt / #2) ;;
  k4 <- call fun_ (x0 +^ dt *^ k3) (t + dt) ;;
  ret (x0 +^ (dt / #6) *^ (k1 +^ #2 *^ k2 +^ #2 *^ k3 +^ k4)).

(** [Heun(fun, x0, t, dt, *args)] *)
Definition Heun (fun_ : V -> A -> V) (x0 : V) (t dt : A) : Traced V A V :=
  k1 <- call fun_ x0 t ;;
  let x_pred := x0 +^ dt *^ k1 in
  k2 <- call fun_ x_pred (t + dt) ;;
  ret (x0 +^ (dec 5 1 * dt) *^ (k1 +^ k2)).
End Integrators.

#[global] Instance vec_ndarray `{Arith A} : Ndarray A (list A) :=
  {| arr_add := vadd; arr_scale := smul |}.

(** ** The loop over the coupling strengths

    [for w in ws: body], where the body reads and rebinds the variables
    [s] that live across iterations and appends one result to a list:
    [body w s] is what one iteration produces and [next] extracts from
    it the variables the following iteration starts with. *)
Fixpoint for_each {W S P : Type} (body : W -> S -> P) (next : P -> S)
    (s : S) (ws : list W) : list P :=
  match ws with
  | [] => []
  | w :: rest => let p := body w s in p :: for_each body next (next p) rest
  end.

(** ** The piecewise Rossler notebook *)

Module Rossler.

(** The 3xN state matrix [vars_nodes]: rows [x], [y], [z]. *)
Record vars3 (A : Type) := Vars3 { vx : list A; vy : list A; vz : list A }.
Arguments Vars3 {A} _ _ _.
Arguments vx {A} _.
Arguments vy {A} _.
Arguments vz {A} _.

#[global] Instance vars3_ndarray `{Arith A} : Ndarray A (vars3 A) :=
  {| arr_add u v := Vars3 (vadd (vx u) (vx v)) (vadd (vy u) (vy v)) (vadd (vz u) (vz v));
     arr_scale a v := Vars3 (smul a (vx v)) (smul a (vy v)) (smul a (vz v)) |}.

Section Model.
Context {A : Type} `{Arith A}.
Local Open Scope num_scope.

Definition piecewise_Rossler (vars : vars3 A) (t : A) (I : list A)
    (alpha beta R mu : A) (gamma : list A) : vars3 A :=
  let x := vx vars in
  let y := vy vars in
  let z := vz vars in
  let g_x := np_where ((fun xi => xi <=? #3) <$> x) #0 (smul mu (vsubs x #3)) in
  let dx_dt := vmul gamma (vsub (vsub (smul (- alpha) (vsub x I)) z) (smul beta y)) in
  let dy_dt := vmul gamma (vsub x (smul (dec 2 2 - #10 / R) y)) in
  let dz_dt := vmul gamma (vsub g_x z) in
  Vars3 dx_dt dy_dt dz_dt.

Definition coupling_func (vars : list A) (weight : A)
    (pre_ids post_ids : list nat) : list A :=
  let currents := smul weight (vsub (take_ids vars pre_ids) (take_ids vars post_ids)) in
  let num_nodes := length vars in
  let Icoup := bincount post_ids currents num_nodes in
  Icoup.
End Model.

(** *** The sweep driver [net(N, A_adj, weight_list)] *)

Section Net.
Context {A : Type} `{Arith A} `{Libm A}.
Context (N : nat) (A_adj : list (list A)).
Local Open Scope num_scope.

Definition alpha : A := dec 5 2.
Definition beta : A := dec 5 1.
Definition R : A := #100.
Definition mu : A := #15.
Definition gamma_base : A := #10000.

Definition x0 : list A := smul (dec 1 1) (ones N).
Definition y0 : list A := smul (dec 2 1) (ones N).
Definition z0 : list A := smul (dec 3 1) (ones N).
(** [np.vstack((x0, y0, z0))] *)
Definition vars_nodes0 : vars3 A := Vars3 x0 y0 z0.

Definition post_ids : list nat := (nonzero A_adj).1.
Definition pre_ids : list nat := (nonzero A_adj).2.
Definition degrees : list A := sum_axis1 A_adj.
Definition dgamma : A := dec 2 1.
Definition gamma : list A :=
  smul gamma_base (sadd #1 (vdivs (smul dgamma (vsubs degrees #1)) #(Z.of_nat N))).

Definition dt : A := dec 1 4.

(** The loop variables that live across iterations. *)
Record state := State { vars_nodes : vars3 A; t : A }.

(** One call [RK4(piecewise_Rossler, vars_nodes, t, dt, Icoup, ...)]:
    the array [vars_nodes] is updated in place. *)
Definition rk4_step (Icoup : list A) (st : state) : state :=
  let field v s := piecewise_Rossler v s Icoup alpha beta R mu gamma in
  State (RK4 field (vars_nodes st) (t st) dt).1 (t st).

(** Body of the first loop: coupling input identically zero. *)
Definition init_step (st : state) : state :=
  let Icoup := zeros N in
  rk4_step Icoup st.

(** Body of the relaxation loop of one value [weight]. *)
Definition relax_step (weight : A) (st : state) : state :=
  let Icoup := coupling_func (vx (vars_nodes st)) weight pre_ids post_ids in
  rk4_step Icoup st.

Definition cal_n : BinNums.N := 100000%N.

(** Body of the accumulation loop: the step, the order parameter of the
    pseudo-phases [arctan2(y, x)] added to [S], then [t += dt]. *)
Definition accum_step (weight : A) (sS : state * A) : state * A :=
  let st := relax_step weight sS.1 in
  let phi_t := zip_with num_arctan2 (vy (vars_nodes st)) (vx (vars_nodes st)) in
  let S := sS.2 + cabs (cdivr (csum (cexpi <$> phi_t)) #(Z.of_nat N)) / #(Z.of_N cal_n) in
  (State (vars_nodes st) (t st + dt), S).

(** What the driver did for one value: the state it entered the
    relaxation loop with, the state after relaxation, the state after
    accumulation, and the measure [S] appended to [S_list]. *)
Record sweep_point := SweepPoint {
  sp_weight : A;
  sp_entry : state;
  sp_relaxed : state;
  sp_exit : state;
  sp_S : A
}.

(** Body of [for weight in weight_list], entered with the state [st]. *)
Definition sweep_value (weight : A) (st : state) : sweep_point :=
  let st1 := N.iter 10000 (relax_step weight) st in
  let r := N.iter cal_n (accum_step weight) (st1, #0) in
  SweepPoint weight st st1 r.1 r.2.

(** [for weight in weight_list: ...] from the state [st]. *)
Definition sweep (st : state) (weight_list : list A) : list sweep_point :=
  for_each sweep_value sp_exit st weight_list.

(** The state with which the loop over [weight_list] is entered: the
    initial condition advanced by the first loop. *)
Definition init_state : state :=
  N.iter 10000 init_step (State vars_nodes0 #0).

Definition net_trace (weight_list : list A) : list sweep_point :=
  sweep init_state weight_list.

Definition net (weight_list : list A) : list A :=
  sp_S <$> net_trace weight_list.

(** [results[i] = np.asarray(result)]: the row [results[i]] has [len]
    entries; an array of [len] entries is copied into it, an array of
    one entry is broadcast over it, and the assignment of an array of
    any other length is refused ([None]). *)
Definition assign_row (len : nat) (result : list A) : option (list A) :=
  if decide (length result = len) then Some result
  else match result with
       | [r] => Some (replicate len r)
       | _ => None
       end.

(** [Parallel_net(N, A_adj, weight_list)]: [results] has two rows of
    [len = weight_list[0].shape[0]] entries, whatever the length of the
    second list; iteration [i] of the [prange] loop calls [net] on
    [weight_list[i]] and assigns its result to row [i].  The two
    iterations share no variable, so their order does not matter.  A
    list of fewer than two arrays has no [weight_list[i]] ([None]);
    arrays after the second are not read. *)
Definition Parallel_net (weight_list : list (list A))
  : option (list (list A)) :=
  w0 ← weight_list !! 0;
  let len := length w0 in
  row0 ← assign_row len (net w0);
  w1 ← weight_list !! 1;
  row1 ← assign_row len (net w1);
  Some [row0; row1].
End Net.

End Rossler.

(** ** The adaptive Kuramoto notebook *)

Module Kuramoto.

Section Model.
Context {A : Type} `{Arith A} `{Libm A}.
Local Open Scope num_scope.

Definition kuramoto (vars : list A) (t : A) (omega c : list A)
    (pre_ids post_ids : list nat) : list A :=
  let currents := num_sin <$> vsub (take_ids vars pre_ids) (take_ids vars post_ids) in
  let num_nodes := length vars in
  let I_couple := bincount post_ids currents num_nodes in
  let dvars_dt := vadd omega (vmul c I_couple) in
  dvars_dt.

Definition method : (list A -> A -> list A) -> list A -> A -> A
                    -> Traced (list A) A (list A) := Heun.

Definition order_parameter (vars : list A) : A :=
  let N := length vars in
  let r := cabs (cdivr (csum (cexpi <$> vars)) #(Z.of_nat N)) in
  r.

(** [**2] is the product of the entry with itself. *)
Definition local_order_parameter (vars : list A) (pre_ids post_ids : list nat)
    (degree_lit : list A) : list A :=
  let N := length vars in
  let r_temp := cexpi <$> take_ids vars pre_ids in
  let real_part := re <$> r_temp in
  let imag_part := im <$> r_temp in
  let sum_real := bincount post_ids real_part N in
  let sum_imag := bincount post_ids imag_part N in
  let r_sum_abs :=
    num_sqrt <$> vadd (vmul sum_real sum_real) (vmul sum_imag sum_imag) in
  let r_local := vdiv r_sum_abs degree_lit in
  r_local.
End Model.

(** *** The sweep driver [net(N, A_adj, w_list)]

    The three random draws of the source are inputs of the embedding:
    [omega] ([uniform(-1, 1, N)]), [vars_nodes0] ([uniform(-pi, pi, N)])
    and [idx] (the shuffled [arange(N)]). *)

Section Net.
Context {A : Type} `{Arith A} `{Libm A}.
Context (N : nat) (A_adj : list (list A)).
Context (omega vars_nodes0 : list A) (idx : list nat).
Local Open Scope num_scope.

Definition dt : A := dec 5 2.

Definition post_ids : list nat := (nonzero A_adj).1.
Definition pre_ids : list nat := (nonzero A_adj).2.
Definition degrees : list A := sum_axis1 A_adj.

(** [f_adaptive = 1.], so [int(f_adaptive*N)] is [N]. *)
Definition N_adaptive : nat := N.
Definition Nodes_adaptive : list nat :=
  merge_sort Nat.le (take N_adaptive idx).

(** The loop variables of one value: phases, weights, time. *)
Record state := State { vars_nodes : list A; weights : list A; t : A }.

(** The three statements both loops share: local order parameter,
    weights of the adaptive nodes overwritten, one step of [method]. *)
Definition adaptive_step (w : A) (st : state) : state :=
  let r_local := local_order_parameter (vars_nodes st) pre_ids post_ids degrees in
  let weights' :=
    assign_ids (weights st) Nodes_adaptive
               (smul w (take_ids r_local Nodes_adaptive)) in
  let field v s := kuramoto v s omega weights' pre_ids post_ids in
  State (method field (vars_nodes st) (t st) dt).1 weights' (t st).

Definition cal_n : BinNums.N := 300000%N.

Definition accum_step (w : A) (sr : state * A) : state * A :=
  let st := adaptive_step w sr.1 in
  let t' := t st + dt in
  let r := sr.2 + order_parameter (vars_nodes st) / #(Z.of_N cal_n) in
  (State (vars_nodes st) (weights st) t', r).

Record sweep_point := SweepPoint {
  sp_w : A;
  sp_entry : list A;
  sp_relaxed : state;
  sp_exit : state;
  sp_r : A
}.

(** Body of [for w in w_list], entered with the phases [vars]; only the
    array [vars_nodes] lives across values, [weights] and [t] are set
    anew for each. *)
Definition sweep_value (w : A) (vars : list A) : sweep_point :=
  let weights := smul w (ones N) in
  let st1 := N.iter 20000 (adaptive_step w) (State vars weights #0) in
  let r := N.iter cal_n (accum_step w) (st1, #0) in
  SweepPoint w vars st1 r.1 r.2.

Definition sweep (vars : list A) (w_list : list A) : list sweep_point :=
  for_each sweep_value (fun p => vars_nodes (sp_exit p)) vars w_list.

Definition net_trace (w_list : list A) : list sweep_point :=
  sweep vars_nodes0 w_list.

Definition net (w_list : list A) : list A :=
  sp_r <$> net_trace w_list.
End Net.

End Kuramoto.

(** ** Instances of the scalar interface *)

(** IEEE binary64.  The integers converted are far below [2^53], where
    the conversion is exact. *)
Definition float_of_Z (z : Z) : float :=
  match z with
  | Z0 => PrimFloat.zero
  | Zpos _ => PrimFloat.of_uint63 (Uint63.of_Z z)
  | Zneg p => PrimFloat.opp (PrimFloat.of_uint63 (Uint63.of_Z (Zpos p)))
  end.

#[global] Instance float_arith : Arith float := {|
  num_of_Z := float_of_Z;
  num_add := PrimFloat.add;
  num_sub := PrimFloat.sub;
  num_mul := PrimFloat.mul;
  num_div := PrimFloat.div;
  num_neg := PrimFloat.opp;
  num_le := PrimFloat.leb;
  num_nonzero x := negb (PrimFloat.eqb x PrimFloat.zero);
  num_sqrt := PrimFloat.sqrt
|}.

(** Finite: neither NaN nor an infinity. *)
Definition is_finite (x : float) : bool :=
  negb (PrimFloat.is_nan x || PrimFloat.is_infinity x).

(** Exact real arithmetic. *)
#[global] Instance R_arith : Arith R := {|
  num_of_Z := IZR;
  num_add := Rplus;
  num_sub := Rminus;
  num_mul := Rmult;
  num_div := Rdiv;
  num_neg := Ropp;
  num_le x y := if Rle_dec x y then true else false;
  num_nonzero x := if Req_dec_T x 0%R then false else true;
  num_sqrt := R_sqrt.sqrt
|}.

Definition R_arctan2 (y x : R) : R :=
  if Rlt_dec 0 x then atan (y / x)
  else if Rlt_dec x 0 then
         if Rle_dec 0 y then (atan (y / x) + PI)%R else (atan (y / x) - PI)%R
  else if Rlt_dec 0 y then (PI / 2)%R
  else if Rlt_dec y 0 then (- PI / 2)%R
  else 0%R.

#[global] Instance R_libm : Libm R := {|
  num_cos := cos;
  num_sin := sin;
  num_arctan2 := R_arctan2;
  num_hypot x y := R_sqrt.sqrt (x * x + y * y)%R
|}.

(** ** Reference formulas and sample topologies *)

Section Reference.
Context {A : Type} `{Arith A}.
Local Open Scope num_scope.

(** The edges that end at [j], in edge order, each with its
    contribution [weight * (state[source] - state[target])]. *)
Definition incoming (vars : list A) (weight : A)
    (pre_ids post_ids : list nat) (j : nat) : list A :=
  (fun e => weight * (vars !!! e.1 - vars !!! e.2))
    <$> filter (fun e => e.2 = j) (zip pre_ids post_ids).

(** The piecewise term [g] at one node: the branch is taken by the
    comparison [x <= 3] itself. *)
Definition g_x (mu x : A) : A := if x <=? #3 then #0 else mu * (x - #3).
End Reference.

(** An [N] x [N] matrix, and a 3 x [N] state. *)
Definition square {A : Type} (N : nat) (M : list (list A)) : Prop :=
  length M = N /\ Forall (fun row => length row = N) M.
Definition shape3 {A : Type} (N : nat) (v : Rossler.vars3 A) : Prop :=
  length (Rossler.vx v) = N /\ length (Rossler.vy v) = N /\
  length (Rossler.vz v) = N.

(** Lengths of array expressions. *)
Ltac array_lengths :=
  unfold vadd, vsub, vmul, vdiv, smul, sadd, vsubs, vdivs, np_where, zeros, ones;
  repeat first [ rewrite length_zip_with | rewrite length_fmap
               | rewrite length_replicate ];
  try lia.

(** The path [0 - 1 - 2] as an adjacency matrix. *)
Definition path3 : list (list float) :=
  [[0; 1; 0]; [1; 0; 1]; [0; 1; 0]]%float.

(** The uncoupled pre-relaxation on [path3] in binary64, 2000 steps at
    a time, and the state whose every entry is NaN. *)
Definition path3_init_1 : Rossler.state :=
  Eval vm_compute in
    N.iter 2000 (Rossler.init_step 3 path3)
           (Rossler.State (Rossler.vars_nodes0 3) (#0)%num).
Definition path3_init_2 : Rossler.state :=
  Eval vm_compute in N.iter 2000 (Rossler.init_step 3 path3) path3_init_1.
Definition path3_init_3 : Rossler.state :=
  Eval vm_compute in N.iter 2000 (Rossler.init_step 3 path3) path3_init_2.
Definition path3_init_4 : Rossler.state :=
  Eval vm_compute in N.iter 2000 (Rossler.init_step 3 path3) path3_init_3.
Definition path3_init_5 : Rossler.state :=
  Eval vm_compute in N.iter 2000 (Rossler.init_step 3 path3) path3_init_4.
Definition nan_state3 : Rossler.state :=
  Rossler.State (Rossler.Vars3 [nan; nan; nan] [nan; nan; nan] [nan; nan; nan])%float
                0%float.

(** Two coupled nodes and an isolated third one. *)
Definition pair_and_isolated : list (list float) :=
  [[0; 1; 0]; [1; 0; 0]; [0; 0; 0]]%float.

(** * Properties *)

(** ** The coupling evaluator *)

Section Coupling_facts.
Context {A : Type} `{Arith A}.
Local Open Scope num_scope.

Lemma bincount_fold_lookup (es : list (nat * A)) (out : list A) (j : nat) :
  fold_left (fun out iw => alter (fun o => o + iw.2) iw.1 out) es out !! j
  = (fun o => fold_left num_add ((filter (fun e => e.1 = j) es).*2) o) <$> out !! j.
Proof.
  revert out. induction es as [|[i w] es IH]; intros out; simpl.
  - by destruct (out !! j).
  - rewrite IH. rewrite filter_cons. simpl. case_decide as Hij.
    + subst i. rewrite list_lookup_alter_eq. by destruct (out !! j).
    + by rewrite list_lookup_alter_ne.
Qed.

Lemma bincount_fold_length (es : list (nat * A)) (out : list A) :
  length (fold_left (fun out iw => alter (fun o => o + iw.2) iw.1 out) es out)
  = length out.
Proof.
  revert out. induction es as [|e es IH]; intros out; simpl; [done|].
  by rewrite IH, length_alter.
Qed.

Lemma bincount_length (ids : list nat) (ws : list A) (n : nat) :
  Forall (fun i => i < n) ids -> length (bincount ids ws n) = n.
Proof.
  intros Hids. unfold bincount. rewrite bincount_fold_length.
  unfold zeros. rewrite length_replicate.
  destruct ids as [|i ids]; [done|].
  assert (0 < n) as Hn by (inversion Hids; lia).
  assert (max_list (i :: ids) < n) as Hm.
  { clear ws. induction Hids as [|k l Hk _ IH]; simpl in *; lia. }
  lia.
Qed.

Lemma bincount_lookup (ids : list nat) (ws : list A) (n j : nat) :
  j < n ->
  bincount ids ws n !! j
  = Some (fold_left num_add ((filter (fun e => e.1 = j) (zip ids ws)).*2) #0).
Proof.
  intros Hj. unfold bincount. rewrite bincount_fold_lookup.
  unfold zeros. rewrite lookup_replicate_2; [done|].
  destruct ids; lia.
Qed.

Lemma bincount_lookup_none (ids : list nat) (ws : list A) (n j : nat) :
  j < n -> j ∉ ids -> bincount ids ws n !! j = Some #0.
Proof.
  intros Hj Hnot. rewrite bincount_lookup by done. f_equal.
  replace (filter (fun e : nat * A => e.1 = j) (zip ids ws)) with (@nil (nat * A));
    [done|].
  symmetry. revert ws. induction ids as [|i ids IH]; intros [|w ws]; simpl; try done.
  rewrite filter_cons. simpl. case_decide as Hi.
  - subst i. exfalso. apply Hnot. left.
  - apply IH. intros Hin. apply Hnot. by right.
Qed.

Lemma currents_zip (vars : list A) (weight : A) (pre_ids post_ids : list nat) :
  length pre_ids = length post_ids ->
  zip post_ids (smul weight (vsub (take_ids vars pre_ids) (take_ids vars post_ids)))
  = (fun e => (e.2, weight * (vars !!! e.1 - vars !!! e.2))) <$> zip pre_ids post_ids.
Proof.
  revert post_ids. induction pre_ids as [|p pre IH]; intros [|q post] Hlen;
    simpl in *; try done.
  f_equal. apply IH. lia.
Qed.

Lemma filter_currents (f : nat * nat -> A) (es : list (nat * nat)) (j : nat) :
  (filter (fun e : nat * A => e.1 = j) ((fun e => (e.2, f e)) <$> es)).*2
  = f <$> filter (fun e => e.2 = j) es.
Proof.
  induction es as [|e es IH]; simpl; [done|].
  rewrite !filter_cons. simpl. case_decide; simpl; [f_equal|]; apply IH.
Qed.

(** C1.  For a node-state array [vars], a scalar [weight] and an edge
    list of two equally long index arrays whose targets are nodes, the
    coupling evaluator returns one entry per node; the entry of node
    [j] is the sum, accumulated from [0] in edge order, of
    [weight * (vars[source] - vars[target])] over the edges that end at
    [j]; it is exactly [0] for a node no edge ends at. *)
Theorem coupling_func_sums_incoming (vars : list A) (weight : A)
    (pre_ids post_ids : list nat) :
  length pre_ids = length post_ids ->
  Forall (fun i => i < length vars) post_ids ->
  length (Rossler.coupling_func vars weight pre_ids post_ids) = length vars /\
  forall j, j < length vars ->
    Rossler.coupling_func vars weight pre_ids post_ids !! j
    = Some (fold_left num_add (incoming vars weight pre_ids post_ids j) #0)
    /\ (j ∉ post_ids ->
        Rossler.coupling_func vars weight pre_ids post_ids !! j = Some #0).
Proof.
  intros Hlen Hpost. unfold Rossler.coupling_func. split.
  - by apply bincount_length.
  - intros j Hj. split.
    + rewrite bincount_lookup by done.
      rewrite currents_zip by done.
      by rewrite (filter_currents (fun e => weight * (vars !!! e.1 - vars !!! e.2))).
    + intros Hnot. by apply bincount_lookup_none.
Qed.
End Coupling_facts.

(** A three-node path [0 - 1 - 2] evaluated in binary64: node 1
    receives [0.5*(1-2) + 0.5*(4-2)]. *)
Lemma coupling_func_path_example :
  Rossler.coupling_func [1; 2; 4]%float 0.5%float [1; 0; 2; 1] [0; 1; 1; 2] !! 1
  = Some 0.5%float.
Proof.
  destruct (coupling_func_sums_incoming [1; 2; 4]%float 0.5%float
              [1; 0; 2; 1] [0; 1; 1; 2] eq_refl
              ltac:(repeat constructor)) as [_ Hj].
  destruct (Hj 1 ltac:(repeat constructor)) as [-> _].
  vm_compute. reflexivity.
Defined.

(** ** The piecewise Rossler vector field *)

Section Rossler_field_facts.
Context {A : Type} `{Arith A}.
Local Open Scope num_scope.

(** C2.  At every node [j] the vector field returns
    [dx/dt = gamma*(-alpha*(x - I) - z - beta*y)],
    [dy/dt = gamma*(x - (0.02 - 10/R)*y)] and
    [dz/dt = gamma*(g(x) - z)], where [g(x)] is [0] when the comparison
    [x <= 3] holds and [mu*(x - 3)] when it does not. *)
Theorem piecewise_Rossler_at_node (vars : Rossler.vars3 A) (t : A) (I : list A)
    (alpha beta R mu : A) (gamma : list A) (j : nat) (x y z Ij gj : A) :
  Rossler.vx vars !! j = Some x ->
  Rossler.vy vars !! j = Some y ->
  Rossler.vz vars !! j = Some z ->
  I !! j = Some Ij ->
  gamma !! j = Some gj ->
  let res := Rossler.piecewise_Rossler vars t I alpha beta R mu gamma in
  Rossler.vx res !! j = Some (gj * (- alpha * (x - Ij) - z - beta * y)) /\
  Rossler.vy res !! j = Some (gj * (x - (dec 2 2 - #10 / R) * y)) /\
  Rossler.vz res !! j = Some (gj * (g_x mu x - z)).
Proof.
  intros Hx Hy Hz HI Hg res. subst res.
  unfold Rossler.piecewise_Rossler, vmul, vsub, smul, vsubs, np_where, g_x.
  cbn [Rossler.vx Rossler.vy Rossler.vz].
  repeat split;
    repeat (rewrite ?lookup_zip_with, ?list_lookup_fmap, ?Hx, ?Hy, ?Hz, ?HI, ?Hg;
            cbn [mbind option_bind fmap option_fmap option_map]);
    reflexivity.
Qed.
End Rossler_field_facts.

(** The field at one node in binary64, below the threshold and at
    [x = 4]: above the threshold [dz/dt] gains [mu*(x - 3)]. *)
Lemma piecewise_Rossler_example :
  Rossler.vz (Rossler.piecewise_Rossler
                (Rossler.Vars3 [4] [2] [1]) 0 [0] 0.5 0.5 100 15 [2])%float !! 0
  = Some 28%float.
Proof.
  destruct (piecewise_Rossler_at_node
              (Rossler.Vars3 [4] [2] [1])%float 0%float [0]%float
              0.5%float 0.5%float 100%float 15%float [2]%float 0
              4%float 2%float 1%float 0%float 2%float
              eq_refl eq_refl eq_refl eq_refl eq_refl) as (_ & _ & ->).
  vm_compute. reflexivity.
Defined.

(** The constants of the field as binary64 numbers ([0.02] is the
    nearest binary64, [0x1.47ae147ae147bp-6]), and the threshold over
    the reals: [g] is [0] up to and including [3] and [mu*(x-3)]
    strictly above. *)
Lemma Rossler_constants_float :
  (dec 2 2 : float) = 0x1.47ae147ae147bp-6%float /\ (#10 : float)%num = 10%float
  /\ (#3 : float)%num = 3%float.
Proof. vm_compute. repeat split; reflexivity. Qed.

Lemma g_x_real (mu x : R) :
  ((x <= 3)%R -> g_x mu x = 0%R) /\ ((3 < x)%R -> g_x mu x = (mu * (x - 3))%R).
Proof.
  unfold g_x. cbn. destruct (Rle_dec x 3); split; intros; try reflexivity; lra.
Qed.

(** ** The integrators *)

Section Integrator_facts.
Context {A V : Type} `{Arith A} `{Ndarray A V}.
Local Open Scope num_scope.
Local Infix "+^" := arr_add (at level 50, left associativity).
Local Infix "*^" := arr_scale (at level 40, left associativity).

(** C3.  One call of [RK4] evaluates the vector field exactly four
    times, in this order: at [(x0, t)], at the two predicted states at
    [t + dt/2] and at the predicted state at [t + dt]; the new contents
    of the state array are [x0 + (dt/6)*(k1 + 2*k2 + 2*k3 + k4)]. *)
Theorem RK4_four_evaluations (fun_ : V -> A -> V) (x0 : V) (t dt : A) :
  let k1 := fun_ x0 t in
  let k2 := fun_ (x0 +^ (dt / #2) *^ k1) (t + dt / #2) in
  let k3 := fun_ (x0 +^ (dt / #2) *^ k2) (t + dt / #2) in
  let k4 := fun_ (x0 +^ dt *^ k3) (t + dt) in
  (RK4 fun_ x0 t dt).1 = x0 +^ (dt / #6) *^ (k1 +^ #2 *^ k2 +^ #2 *^ k3 +^ k4) /\
  (RK4 fun_ x0 t dt).2 =
    [(x0, t); (x0 +^ (dt / #2) *^ k1, t + dt / #2);
     (x0 +^ (dt / #2) *^ k2, t + dt / #2); (x0 +^ dt *^ k3, t + dt)].
Proof. by split. Qed.

(** [Heun] evaluates the field twice, at [(x0, t)] and at the Euler
    prediction at [t + dt]. *)
Lemma Heun_two_evaluations (fun_ : V -> A -> V) (x0 : V) (t dt : A) :
  let k1 := fun_ x0 t in
  let k2 := fun_ (x0 +^ dt *^ k1) (t + dt) in
  Heun fun_ x0 t dt
  = (x0 +^ (dec 5 1 * dt) *^ (k1 +^ k2), [(x0, t); (x0 +^ dt *^ k1, t + dt)]).
Proof. reflexivity. Qed.
End Integrator_facts.

(** The state array of the Rossler driver after a step is the one
    [RK4] computed: the update is in place. *)
Lemma rk4_step_in_place `{Arith A} (N : nat) (A_adj : list (list A))
    (Icoup : list A) (st : Rossler.state) :
  Rossler.vars_nodes (Rossler.rk4_step N A_adj Icoup st)
  = (RK4 (fun v s => Rossler.piecewise_Rossler v s Icoup Rossler.alpha
                       Rossler.beta Rossler.R Rossler.mu (Rossler.gamma N A_adj))
         (Rossler.vars_nodes st) (Rossler.t st) Rossler.dt).1.
Proof. reflexivity. Qed.

(** The coupling input of a step is computed from the first row of the
    state only. *)
Lemma relax_step_couples_x `{Arith A} (N : nat) (A_adj : list (list A))
    (weight : A) (st : Rossler.state) :
  Rossler.relax_step N A_adj weight st
  = Rossler.rk4_step N A_adj
      (Rossler.coupling_func (Rossler.vx (Rossler.vars_nodes st)) weight
         (Rossler.pre_ids A_adj) (Rossler.post_ids A_adj)) st.
Proof. reflexivity. Qed.

(** [RK4] on a one-dimensional array, entry by entry. *)
Lemma RK4_at_node `{Arith A} (fun_ : list A -> A -> list A) (x0 : list A)
    (t dt : A) (j : nat) (x a1 a2 a3 a4 : A) :
  let k1 := fun_ x0 t in
  let k2 := fun_ (vadd x0 (smul (dt / #2)%num k1)) (t + dt / #2)%num in
  let k3 := fun_ (vadd x0 (smul (dt / #2)%num k2)) (t + dt / #2)%num in
  let k4 := fun_ (vadd x0 (smul dt k3)) (t + dt)%num in
  x0 !! j = Some x ->
  k1 !! j = Some a1 -> k2 !! j = Some a2 -> k3 !! j = Some a3 -> k4 !! j = Some a4 ->
  (RK4 fun_ x0 t dt).1 !! j
  = Some (x + dt / #6 * (a1 + #2 * a2 + #2 * a3 + a4))%num.
Proof.
  intros k1 k2 k3 k4 Hx H1 H2 H3 H4.
  unfold RK4, bind, call, ret. cbn [fst arr_add arr_scale vec_ndarray].
  fold k1. fold k2. fold k3. fold k4.
  unfold vadd, smul.
  repeat (rewrite ?lookup_zip_with, ?list_lookup_fmap, ?Hx, ?H1, ?H2, ?H3, ?H4;
          cbn [mbind option_bind fmap option_fmap option_map]).
  reflexivity.
Qed.

(** ** The loop over the coupling strengths *)

Section For_each_facts.
Context {W S P : Type} (body : W -> S -> P) (next : P -> S).

Lemma for_each_length (s : S) (ws : list W) :
  length (for_each body next s ws) = length ws.
Proof. revert s. induction ws as [|w ws IH]; intros s; simpl; [done|]. by rewrite IH. Qed.

(** An invariant of the carried variables holds on entry to every
    iteration, hence what it implies holds of every result. *)
Lemma for_each_invariant (Inv : S -> Prop) (Post : P -> Prop) :
  (forall w s, Inv s -> Post (body w s) /\ Inv (next (body w s))) ->
  forall s ws, Inv s -> Forall Post (for_each body next s ws).
Proof.
  intros Hstep s ws. revert s. induction ws as [|w ws IH]; intros s Hs; simpl.
  - constructor.
  - destruct (Hstep w s Hs) as [Hp Hn]. constructor; [done|]. by apply IH.
Qed.

End For_each_facts.

(** ** The global order parameter, in exact arithmetic *)

Section Order_parameter_real.
Local Open Scope R_scope.

Lemma phasor_sum_bound (l : list R) (c : complex R) (m : R) :
  0 <= m -> re c * re c + im c * im c <= m * m ->
  re (fold_left cadd (cexpi <$> l) c) * re (fold_left cadd (cexpi <$> l) c)
  + im (fold_left cadd (cexpi <$> l) c) * im (fold_left cadd (cexpi <$> l) c)
  <= (m + INR (length l)) * (m + INR (length l)).
Proof.
  revert c m. induction l as [|a l IH]; intros c m Hm Hc.
  - simpl. rewrite Rplus_0_r. exact Hc.
  - rewrite fmap_cons. cbn [fold_left]. rewrite length_cons, S_INR.
    replace (m + (INR (length l) + 1)) with ((m + 1) + INR (length l)) by ring.
    apply IH; [lra|].
    destruct c as [a0 b0]. cbn in *.
    pose proof (sin2_cos2 a) as Hsc. unfold Rsqr in Hsc.
    assert (a0 * cos a + b0 * sin a <= m) as Hcs.
    { assert ((a0 * cos a + b0 * sin a) * (a0 * cos a + b0 * sin a)
              = (a0 * a0 + b0 * b0) * (sin a * sin a + cos a * cos a)
                - (a0 * sin a - b0 * cos a) * (a0 * sin a - b0 * cos a)) as E by ring.
      rewrite Hsc in E.
      pose proof (Rle_0_sqr (a0 * sin a - b0 * cos a)) as Hsq. unfold Rsqr in Hsq.
      nra. }
    nra.
Qed.

Lemma phasor_mean_bound (l : list R) (n : nat) :
  (length l <= n)%nat -> (1 <= n)%nat ->
  0 <= cabs (cdivr (csum (cexpi <$> l)) (num_of_Z (Z.of_nat n))) <= 1.
Proof.
  intros Hl Hn. unfold cabs, cdivr, csum. cbn.
  rewrite <- INR_IZR_INZ.
  pose proof (phasor_sum_bound l (Complex 0 0) 0 (Rle_refl 0)) as Hb.
  cbn in Hb. rewrite Rplus_0_l in Hb.
  specialize (Hb ltac:(lra)).
  set (s := fold_left cadd (cexpi <$> l) (Complex 0 0)) in *.
  assert (1 <= INR n) as Hn1 by (apply (le_INR 1); lia).
  assert (INR (length l) <= INR n) as Hln by (by apply le_INR).
  assert (0 <= INR (length l)) as Hl0 by apply pos_INR.
  split; [apply sqrt_pos|].
  rewrite <- sqrt_1. apply sqrt_le_1_alt.
  assert (re s / INR n * (re s / INR n) + im s / INR n * (im s / INR n)
          = (re s * re s + im s * im s) / (INR n * INR n)) as -> by (field; lra).
  apply (Rmult_le_reg_r (INR n * INR n)); [nra|].
  unfold Rdiv. rewrite Rmult_assoc, Rinv_l by nra. nra.
Qed.
End Order_parameter_real.

(** A running mean: [c] additions of terms [r / c] with [0 <= r <= 1],
    starting from [0], stay in [[0, 1]]. *)
Lemma mean_accumulation_bound {St : Type} (Inv : St -> Prop)
    (step : St * R -> St * R) (c : N) :
  (0 < c)%N ->
  (forall st S, Inv st ->
     Inv (step (st, S)).1 /\
     exists r, (0 <= r <= 1)%R /\ (step (st, S)).2 = (S + r / IZR (Z.of_N c))%R) ->
  forall st, Inv st ->
  forall n, Inv (N.iter n step (st, 0%R)).1 /\
            (0 <= (N.iter n step (st, 0%R)).2 <= IZR (Z.of_N n) / IZR (Z.of_N c))%R.
Proof.
  intros Hc Hstep st Hst n.
  assert (0 < IZR (Z.of_N c))%R as Hc' by (apply IZR_lt; lia).
  induction n as [|n IH] using N.peano_ind.
  - simpl. split; [done|]. unfold Rdiv. rewrite Rmult_0_l. lra.
  - rewrite N.iter_succ. destruct IH as [HI [H0 H1]].
    destruct (N.iter n step (st, 0%R)) as [s S]. simpl in *.
    destruct (Hstep s S HI) as [HI' (r & [Hr0 Hr1] & ->)].
    split; [done|].
    rewrite N2Z.inj_succ, succ_IZR.
    assert (0 <= r / IZR (Z.of_N c))%R
      by (apply Rmult_le_pos; [lra | left; by apply Rinv_0_lt_compat]).
    assert (r / IZR (Z.of_N c) <= 1 / IZR (Z.of_N c))%R
      by (apply Rmult_le_compat_r; [left; by apply Rinv_0_lt_compat | lra]).
    split; [lra|].
    replace ((IZR (Z.of_N n) + 1) / IZR (Z.of_N c))%R
      with (IZR (Z.of_N n) / IZR (Z.of_N c) + 1 / IZR (Z.of_N c))%R by (field; lra).
    lra.
Qed.

Section Measure_real.
Local Open Scope R_scope.

Lemma order_parameter_bound (vars : list R) :
  0 <= Kuramoto.order_parameter vars <= 1.
Proof.
  unfold Kuramoto.order_parameter.
  destruct vars as [|v vars].
  - cbn. unfold Rdiv. rewrite !Rmult_0_l, Rplus_0_l, sqrt_0. lra.
  - apply phasor_mean_bound; simpl; lia.
Qed.

Lemma rk4_step_length (N : nat) (A_adj : list (list R)) (Icoup : list R)
    (st : Rossler.state) :
  (length (Rossler.vx (Rossler.vars_nodes (Rossler.rk4_step N A_adj Icoup st)))
   <= length (Rossler.vx (Rossler.vars_nodes st)))%nat.
Proof.
  cbn. unfold vadd. rewrite length_zip_with. lia.
Qed.

Lemma init_state_length (N : nat) (A_adj : list (list R)) :
  (length (Rossler.vx (Rossler.vars_nodes (Rossler.init_state N A_adj))) <= N)%nat.
Proof.
  unfold Rossler.init_state.
  apply (N.iter_invariant 10000 _ _
           (fun st => (length (Rossler.vx (Rossler.vars_nodes st)) <= N)%nat)).
  - intros st Hst. unfold Rossler.init_step.
    etransitivity; [apply rk4_step_length | exact Hst].
  - cbn. unfold Rossler.x0, smul, ones. by rewrite length_fmap, length_replicate.
Qed.

Lemma Rossler_sweep_value_bound (N : nat) (A_adj : list (list R)) (w : R)
    (st : Rossler.state) :
  (1 <= N)%nat ->
  (length (Rossler.vx (Rossler.vars_nodes st)) <= N)%nat ->
  0 <= Rossler.sp_S (Rossler.sweep_value N A_adj w st) <= 1
  /\ (length (Rossler.vx (Rossler.vars_nodes
                (Rossler.sp_exit (Rossler.sweep_value N A_adj w st)))) <= N)%nat.
Proof.
  intros HN Hst. unfold Rossler.sweep_value.
  cbn [Rossler.sp_S Rossler.sp_exit].
  set (st1 := N.iter 10000 (Rossler.relax_step N A_adj w) st).
  assert (length (Rossler.vx (Rossler.vars_nodes st1)) <= N)%nat as Hst1.
  { apply (N.iter_invariant 10000 _ _
             (fun st => (length (Rossler.vx (Rossler.vars_nodes st)) <= N)%nat));
      [|exact Hst].
    intros s Hs. unfold Rossler.relax_step.
    etransitivity; [apply rk4_step_length | exact Hs]. }
  destruct (mean_accumulation_bound
              (fun st => (length (Rossler.vx (Rossler.vars_nodes st)) <= N)%nat)
              (Rossler.accum_step N A_adj w) Rossler.cal_n) with (st := st1)
              (n := Rossler.cal_n) as [Hlen [H0 H1]]; try done.
  - intros s S Hs. unfold Rossler.accum_step. cbn [fst snd].
    assert (length (Rossler.vx (Rossler.vars_nodes (Rossler.relax_step N A_adj w s)))
            <= N)%nat as Hs'.
    { unfold Rossler.relax_step.
      etransitivity; [apply rk4_step_length | exact Hs]. }
    split; [exact Hs'|].
    eexists. split; [|reflexivity].
    apply phasor_mean_bound; [|exact HN].
    rewrite length_zip_with. lia.
  - split; [|exact Hlen]. split; [exact H0|].
    unfold Rdiv in H1. rewrite Rinv_r in H1; [exact H1|].
    apply not_0_IZR. done.
Qed.

Lemma Kuramoto_sweep_value_bound (N : nat) (A_adj : list (list R))
    (omega : list R) (idx : list nat) (w : R) (vars : list R) :
  0 <= Kuramoto.sp_r (Kuramoto.sweep_value N A_adj omega idx w vars) <= 1.
Proof.
  unfold Kuramoto.sweep_value. cbn [Kuramoto.sp_r].
  match goal with |- context [N.iter Kuramoto.cal_n ?f (?s, _)] =>
    destruct (mean_accumulation_bound (fun _ => True) f Kuramoto.cal_n)
      with (st := s) (n := Kuramoto.cal_n) as [_ [H0 H1]]; try done
  end.
  - intros s S _. split; [done|]. unfold Kuramoto.accum_step. cbn [fst snd].
    eexists. split; [|reflexivity]. apply order_parameter_bound.
  - split; [exact H0|].
    unfold Rdiv in H1. rewrite Rinv_r in H1; [exact H1|].
    apply not_0_IZR. done.
Qed.

(** The formulas in exact arithmetic: for [N >= 1] nodes the global
    order parameter [|sum_j exp(i*phi_j)| / N] of every phase vector
    lies in [[0, 1]], and so does the mean of [cal_n] such values that
    either sweep driver accumulates.  The binary64 values the notebooks
    compute are treated at the end of the file. *)
Theorem order_parameter_in_unit_interval (N : nat) (HN : (1 <= N)%nat) :
  (forall vars : list R, length vars = N ->
     0 <= Kuramoto.order_parameter vars <= 1) /\
  (forall A_adj weight_list S,
     S ∈ Rossler.net N A_adj weight_list -> 0 <= S <= 1) /\
  (forall A_adj omega vars_nodes0 idx w_list r,
     r ∈ Kuramoto.net N A_adj omega vars_nodes0 idx w_list -> 0 <= r <= 1).
Proof.
  split; [|split].
  - intros vars _. apply order_parameter_bound.
  - intros A_adj weight_list S HS.
    unfold Rossler.net, Rossler.net_trace, Rossler.sweep in HS.
    apply list_elem_of_fmap in HS as (p & -> & Hp).
    pose proof (for_each_invariant (Rossler.sweep_value N A_adj) Rossler.sp_exit
                  (fun st => (length (Rossler.vx (Rossler.vars_nodes st)) <= N)%nat)
                  (fun p => 0 <= Rossler.sp_S p <= 1)) as Hinv.
    eapply List.Forall_forall in Hinv; [exact Hinv| | |].
    + intros w s Hs. by apply Rossler_sweep_value_bound.
    + apply init_state_length.
    + apply list_elem_of_In. exact Hp.
  - intros A_adj omega vars_nodes0 idx w_list r Hr.
    unfold Kuramoto.net, Kuramoto.net_trace, Kuramoto.sweep in Hr.
    apply list_elem_of_fmap in Hr as (p & -> & Hp).
    pose proof (for_each_invariant (Kuramoto.sweep_value N A_adj omega idx)
                  (fun p => Kuramoto.vars_nodes (Kuramoto.sp_exit p))
                  (fun _ => True)
                  (fun p => 0 <= Kuramoto.sp_r p <= 1)) as Hinv.
    eapply List.Forall_forall in Hinv; [exact Hinv| | |].
    + intros w s _. split; [|done]. apply Kuramoto_sweep_value_bound.
    + done.
    + apply list_elem_of_In. exact Hp.
Qed.

(** One oscillator: the order parameter of any single phase. *)
Lemma order_parameter_single_phase :
  0 <= Kuramoto.order_parameter [0%R] <= 1.
Proof.
  destruct (order_parameter_in_unit_interval 1 (le_n 1)) as [Hop _].
  apply Hop. reflexivity.
Defined.
End Measure_real.

(** ** The sweep drivers: what is carried from one value to the next *)

Section For_each_lookup.
Context {W S P : Type} (body : W -> S -> P) (next : P -> S).


End For_each_lookup.



(** ** The adaptive weight rule *)

Section Adaptive_facts.
Context {A : Type} `{Arith A} `{Libm A}.
Local Open Scope num_scope.

Lemma assign_ids_length (v : list A) (ids : list nat) (vals : list A) :
  length (assign_ids v ids vals) = length v.
Proof.
  unfold assign_ids. revert v vals.
  induction ids as [|i ids IH]; intros v [|x vals]; simpl; try done.
  by rewrite IH, length_insert.
Qed.

(** [v[ids] = g(ids)]: the entries named by [ids] hold [g] of their
    index, the others are untouched. *)
Lemma assign_ids_lookup (v : list A) (ids : list nat) (g : nat -> A) (j : nat) :
  assign_ids v ids (g <$> ids) !! j
  = if decide (j ∈ ids /\ j < length v) then Some (g j) else v !! j.
Proof.
  unfold assign_ids. revert v.
  induction ids as [|i ids IH]; intros v.
  - rewrite decide_False; [done|]. intros [Hd _]. by apply elem_of_nil in Hd.
  - etransitivity; [apply (IH (<[i := g i]> v))|].
    rewrite length_insert.
    destruct (decide (j ∈ ids /\ j < length v)) as [[Hin Hlt]|Hno].
    + rewrite decide_True; [done|]. split; [by right|done].
    + rewrite list_lookup_insert.
      destruct (decide (i = j /\ i < length v)) as [[Heq Hlt]|Hn1];
        destruct (decide (j ∈ i :: ids /\ j < length v)) as [[Hin Hlt']|Hn2].
      * by rewrite Heq.
      * exfalso. apply Hn2. subst i. split; [left | done].
      * exfalso. apply elem_of_cons in Hin as [Hji|Hin];
          [apply Hn1; subst i; by split | apply Hno; by split].
      * reflexivity.
Qed.

End Adaptive_facts.


(** With [f_adaptive = 1] and [idx] a permutation of [0 .. N-1], every
    node is flagged adaptive. *)
Lemma all_nodes_adaptive (N : nat) (idx : list nat) (j : nat) :
  idx ≡ₚ seq 0 N -> j < N -> j ∈ Kuramoto.Nodes_adaptive N idx.
Proof.
  intros Hperm Hj. unfold Kuramoto.Nodes_adaptive, Kuramoto.N_adaptive.
  rewrite merge_sort_Permutation.
  rewrite firstn_all2.
  - rewrite Hperm. apply elem_of_seq. lia.
  - apply Permutation_length in Hperm. rewrite length_seq in Hperm. lia.
Qed.

(** ** The uncoupled pre-relaxation of the Rossler driver *)


(** ** The local order parameter at a node without incoming edges *)

Section Nonzero_facts.
Context {A : Type} `{Arith A}.

(** A row index listed by [np.nonzero] names a row with a non-zero
    entry. *)
Lemma nonzero_row_index (M : list (list A)) (i : nat) :
  i ∈ (nonzero M).1 ->
  exists row x, M !! i = Some row /\ x ∈ row /\ num_nonzero x = true.
Proof.
  unfold nonzero. cbn [fst]. intros Hi.
  apply list_elem_of_fmap in Hi as ([i' c] & Hi' & He). cbn in Hi'. subst i'.
  apply list_elem_of_join in He as (l & He & Hl).
  apply elem_of_lookup_imap in Hl as (k & row & Hl & Hrow). subst l.
  unfold nonzero_row in He.
  apply list_elem_of_fmap in He as ([c' x] & Heq & Hx).
  cbn in Heq. injection Heq as Hik Hc. subst k c'.
  apply list_elem_of_filter in Hx as [Hnz Hx]. cbn in Hnz.
  apply elem_of_lookup_imap in Hx as (c'' & x' & Heq & Hx').
  injection Heq as Hc Hxx. subst c'' x'.
  exists row, x. split; [done|]. split; [|done].
  by eapply list_elem_of_lookup_2.
Qed.
End Nonzero_facts.

Section Isolated_node.
Context {libm : Libm float}.
Local Open Scope float_scope.

Lemma np_sum_zero_row (n : nat) : np_sum (replicate n 0) = 0.
Proof.
  unfold np_sum. cbn [num_of_Z float_arith float_of_Z].
  induction n as [|n IH]; [reflexivity|]. exact IH.
Qed.

(** The unguarded quotient: no edge ends at [j] and its degree is [0],
    so the entry is [sqrt(0*0 + 0*0) / 0]. *)
Lemma local_order_parameter_zero_degree (vars : list float)
    (pre_ids post_ids : list nat) (degree_lit : list float) (j : nat) :
  (j < length vars)%nat -> j ∉ post_ids -> degree_lit !! j = Some 0 ->
  Kuramoto.local_order_parameter vars pre_ids post_ids degree_lit !! j = Some nan.
Proof.
  intros Hj Hnot Hdeg. unfold Kuramoto.local_order_parameter, vdiv, vadd, vmul.
  rewrite lookup_zip_with, list_lookup_fmap, !lookup_zip_with.
  rewrite !bincount_lookup_none by done. rewrite Hdeg. reflexivity.
Qed.

(** C7, as the code has it.  For every adjacency matrix, every state
    and every node [j] whose row of the matrix is zero (no incoming
    edge, degree [0]), the local order parameter of [j] is the
    unguarded quotient [0/0]: in binary64 it is NaN, not a finite
    value. *)
Theorem local_order_parameter_isolated_nan (A_adj : list (list float))
    (vars : list float) (j n : nat) :
  A_adj !! j = Some (replicate n 0) ->
  (j < length vars)%nat ->
  Kuramoto.local_order_parameter vars (Kuramoto.pre_ids A_adj)
    (Kuramoto.post_ids A_adj) (Kuramoto.degrees A_adj) !! j = Some nan.
Proof.
  intros Hrow Hj. apply local_order_parameter_zero_degree; [done| |].
  - intros Hin. apply nonzero_row_index in Hin as (row & x & Hrow' & Hx & Hnz).
    rewrite Hrow in Hrow'. injection Hrow' as <-.
    apply elem_of_replicate_inv in Hx as ->. discriminate Hnz.
  - unfold Kuramoto.degrees, sum_axis1.
    rewrite list_lookup_fmap, Hrow. cbn. by rewrite np_sum_zero_row.
Qed.
End Isolated_node.

(** Whatever the transcendental functions are, the isolated node gets
    NaN. *)
Lemma local_order_parameter_isolated_example :
  ~ exists libm : Libm float,
      Kuramoto.local_order_parameter [0; 1; 2]%float
        (Kuramoto.pre_ids pair_and_isolated) (Kuramoto.post_ids pair_and_isolated)
        (Kuramoto.degrees pair_and_isolated) !! 2 <> Some nan.
Proof.
  intros [libm Hne]. apply Hne.
  exact (local_order_parameter_isolated_nan pair_and_isolated [0; 1; 2]%float 2 3
           eq_refl ltac:(repeat constructor)).
Defined.

(** The claim as the specification words it fails there: the value is
    not finite. *)
Lemma local_order_parameter_not_finite :
  ~ exists libm : Libm float,
      is_finite (Kuramoto.local_order_parameter [0; 1; 2]%float
                   (Kuramoto.pre_ids pair_and_isolated)
                   (Kuramoto.post_ids pair_and_isolated)
                   (Kuramoto.degrees pair_and_isolated) !!! 2) = true.
Proof.
  intros [libm Hfin].
  erewrite list_lookup_total_correct in Hfin;
    [|apply local_order_parameter_zero_degree;
      [repeat constructor | vm_compute; by inversion 1 | reflexivity]].
  discriminate Hfin.
Qed.

(** ** Non-finite states *)

Section Sweep_value_steps.
Context {A : Type} `{Arith A} `{Libm A}.

(** What the body of the loop over the strengths runs: the full
    relaxation loop from the entry state, then the full accumulation
    loop from the relaxed state. *)
Lemma Rossler_sweep_value_steps (N : nat) (A_adj : list (list A)) (w : A)
    (st : Rossler.state) :
  Rossler.sp_weight (Rossler.sweep_value N A_adj w st) = w /\
  Rossler.sp_entry (Rossler.sweep_value N A_adj w st) = st /\
  Rossler.sp_relaxed (Rossler.sweep_value N A_adj w st)
  = N.iter 10000 (Rossler.relax_step N A_adj w) st /\
  (Rossler.sp_exit (Rossler.sweep_value N A_adj w st),
   Rossler.sp_S (Rossler.sweep_value N A_adj w st))
  = N.iter Rossler.cal_n (Rossler.accum_step N A_adj w)
           (N.iter 10000 (Rossler.relax_step N A_adj w) st, (#0)%num).
Proof.
  unfold Rossler.sweep_value.
  cbn [Rossler.sp_exit Rossler.sp_S Rossler.sp_relaxed Rossler.sp_weight
       Rossler.sp_entry].
  split; [reflexivity|]. split; [reflexivity|]. split; [reflexivity|].
  symmetry. apply surjective_pairing.
Qed.

Lemma Kuramoto_sweep_value_steps (N : nat) (A_adj : list (list A))
    (omega : list A) (idx : list nat) (w : A) (vars : list A) :
  Kuramoto.sp_w (Kuramoto.sweep_value N A_adj omega idx w vars) = w /\
  Kuramoto.sp_entry (Kuramoto.sweep_value N A_adj omega idx w vars) = vars /\
  Kuramoto.sp_relaxed (Kuramoto.sweep_value N A_adj omega idx w vars)
  = N.iter 20000 (Kuramoto.adaptive_step N A_adj omega idx w)
           (Kuramoto.State vars (smul w (ones N)) (#0)%num) /\
  (Kuramoto.sp_exit (Kuramoto.sweep_value N A_adj omega idx w vars),
   Kuramoto.sp_r (Kuramoto.sweep_value N A_adj omega idx w vars))
  = N.iter Kuramoto.cal_n (Kuramoto.accum_step N A_adj omega idx w)
           (N.iter 20000 (Kuramoto.adaptive_step N A_adj omega idx w)
                   (Kuramoto.State vars (smul w (ones N)) (#0)%num), (#0)%num).
Proof.
  unfold Kuramoto.sweep_value.
  cbn [Kuramoto.sp_exit Kuramoto.sp_r Kuramoto.sp_relaxed Kuramoto.sp_w
       Kuramoto.sp_entry].
  split; [reflexivity|]. split; [reflexivity|]. split; [reflexivity|].
  symmetry. apply surjective_pairing.
Qed.
End Sweep_value_steps.

(** C8, as the code has it.  Neither driver tests the state for
    finiteness or has any way to stop early: for every input and every
    coupling strength the relaxation loop and the accumulation loop
    run to their fixed number of steps from whatever the state is, and
    one measure per strength is returned. *)
Theorem sweep_runs_every_step {A : Type} `{Arith A} `{Libm A}
    (N : nat) (A_adj : list (list A)) (omega vars0 : list A) (idx : list nat)
    (ws : list A) :
  length (Rossler.net N A_adj ws) = length ws /\
  Forall (fun p =>
            Rossler.sp_relaxed p
            = N.iter 10000 (Rossler.relax_step N A_adj (Rossler.sp_weight p))
                     (Rossler.sp_entry p) /\
            (Rossler.sp_exit p, Rossler.sp_S p)
            = N.iter Rossler.cal_n (Rossler.accum_step N A_adj (Rossler.sp_weight p))
                     (Rossler.sp_relaxed p, (#0)%num))
         (Rossler.net_trace N A_adj ws) /\
  length (Kuramoto.net N A_adj omega vars0 idx ws) = length ws /\
  Forall (fun p =>
            Kuramoto.sp_relaxed p
            = N.iter 20000 (Kuramoto.adaptive_step N A_adj omega idx (Kuramoto.sp_w p))
                     (Kuramoto.State (Kuramoto.sp_entry p)
                                     (smul (Kuramoto.sp_w p) (ones N)) (#0)%num) /\
            (Kuramoto.sp_exit p, Kuramoto.sp_r p)
            = N.iter Kuramoto.cal_n (Kuramoto.accum_step N A_adj omega idx (Kuramoto.sp_w p))
                     (Kuramoto.sp_relaxed p, (#0)%num))
         (Kuramoto.net_trace N A_adj omega vars0 idx ws).
Proof.
  split; [|split; [|split]].
  - unfold Rossler.net, Rossler.net_trace, Rossler.sweep.
    by rewrite length_fmap, for_each_length.
  - apply (for_each_invariant _ _ (fun _ => True)); [|done].
    intros w s _. split; [|done].
    destruct (Rossler_sweep_value_steps N A_adj w s) as (-> & -> & -> & ->).
    by split.
  - unfold Kuramoto.net, Kuramoto.net_trace, Kuramoto.sweep.
    by rewrite length_fmap, for_each_length.
  - apply (for_each_invariant _ _ (fun _ => True)); [|done].
    intros w s _. split; [|done].
    destruct (Kuramoto_sweep_value_steps N A_adj omega idx w s) as (-> & -> & -> & ->).
    by split.
Qed.

(** The pre-relaxation on [path3], checkpoint by checkpoint. *)
Lemma path3_init_chunk_1 :
  N.iter 2000 (Rossler.init_step 3 path3)
         (Rossler.State (Rossler.vars_nodes0 3) (#0)%num) = path3_init_1.
Proof. vm_compute. reflexivity. Qed.

Lemma path3_init_chunk_2 :
  N.iter 2000 (Rossler.init_step 3 path3) path3_init_1 = path3_init_2.
Proof. vm_compute. reflexivity. Qed.

Lemma path3_init_chunk_3 :
  N.iter 2000 (Rossler.init_step 3 path3) path3_init_2 = path3_init_3.
Proof. vm_compute. reflexivity. Qed.

Lemma path3_init_chunk_4 :
  N.iter 2000 (Rossler.init_step 3 path3) path3_init_3 = path3_init_4.
Proof. vm_compute. reflexivity. Qed.

Lemma path3_init_chunk_5 :
  N.iter 2000 (Rossler.init_step 3 path3) path3_init_4 = path3_init_5.
Proof. vm_compute. reflexivity. Qed.

Lemma path3_init_state : Rossler.init_state 3 path3 = path3_init_5.
Proof.
  unfold Rossler.init_state.
  change 10000%N with (2000 + (2000 + (2000 + (2000 + 2000))))%N.
  rewrite !N.iter_add.
  by rewrite path3_init_chunk_1, path3_init_chunk_2, path3_init_chunk_3,
    path3_init_chunk_4, path3_init_chunk_5.
Qed.

(** With the strength [100] the state is NaN throughout after 500
    steps, and the all-NaN state is a fixed point of the step. *)
Lemma path3_relax_500 :
  N.iter 500 (Rossler.relax_step 3 path3 100%float) path3_init_5 = nan_state3.
Proof. vm_compute. reflexivity. Qed.

Lemma nan_state3_fixed :
  Rossler.relax_step 3 path3 100%float nan_state3 = nan_state3.
Proof. vm_compute. reflexivity. Qed.

Lemma path3_relaxed :
  N.iter 10000 (Rossler.relax_step 3 path3 100%float) (Rossler.init_state 3 path3)
  = nan_state3.
Proof.
  rewrite path3_init_state.
  change 10000%N with (9500 + 500)%N. rewrite N.iter_add, path3_relax_500.
  apply (N.iter_invariant 9500 _ _ (fun s => s = nan_state3)); [|done].
  intros s ->. apply nan_state3_fixed.
Qed.

(** The claim as the specification words it fails on the path
    [0 - 1 - 2] with the coupling strength [100], in binary64: the
    state that enters the sweep is finite, the relaxation loop makes it
    non-finite, and the driver goes on to run the accumulation loop
    from that state and returns its measure. *)
Lemma nonfinite_state_not_surfaced :
  forallb is_finite
    (Rossler.vx (Rossler.vars_nodes (Rossler.init_state 3 path3))) = true /\
  (forall libm : Libm float,
     let p := Rossler.sweep_value 3 path3 100%float (Rossler.init_state 3 path3) in
     Rossler.net 3 path3 [100%float] = [Rossler.sp_S p] /\
     forallb is_finite (Rossler.vx (Rossler.vars_nodes (Rossler.sp_relaxed p)))
     = false /\
     (Rossler.sp_exit p, Rossler.sp_S p)
     = N.iter Rossler.cal_n (Rossler.accum_step 3 path3 100%float)
              (Rossler.sp_relaxed p, 0%float)).
Proof.
  split; [by rewrite path3_init_state|].
  intros libm p.
  destruct (Rossler_sweep_value_steps 3 path3 100%float (Rossler.init_state 3 path3))
    as (_ & _ & Hrelaxed & Hexit).
  fold p in Hrelaxed, Hexit.
  split; [reflexivity|]. split.
  - rewrite Hrelaxed, path3_relaxed. reflexivity.
  - rewrite Hexit, Hrelaxed. reflexivity.
Qed.

(** ** Phases are not wrapped *)

Section Phase_facts.
Context {A : Type} `{Arith A} `{Libm A}.
Local Open Scope num_scope.

(** C9, as the code has it.  One step of the integrator the Kuramoto
    driver uses adds [0.5*dt*(k1 + k2)] to each phase and stores the
    sum as it is: the phase is not reduced modulo [2*pi], so it is not
    confined to [(-pi, pi]]. *)
Theorem kuramoto_step_does_not_wrap (vars omega c : list A)
    (pre_ids post_ids : list nat) (t dt : A) (j : nat) (phi k1 k2 : A) :
  let field v s := Kuramoto.kuramoto v s omega c pre_ids post_ids in
  vars !! j = Some phi ->
  field vars t !! j = Some k1 ->
  field (vadd vars (smul dt (field vars t))) (t + dt) !! j = Some k2 ->
  (Kuramoto.method field vars t dt).1 !! j = Some (phi + dec 5 1 * dt * (k1 + k2)).
Proof.
  intros field Hphi Hk1 Hk2. unfold Kuramoto.method. rewrite Heun_two_evaluations.
  cbn [fst arr_add arr_scale vec_ndarray]. unfold vadd at 1, smul at 1.
  rewrite lookup_zip_with, Hphi. cbn [mbind option_bind].
  rewrite list_lookup_fmap. unfold vadd at 1.
  rewrite lookup_zip_with, Hk1. cbn [mbind option_bind].
  fold field. rewrite Hk2. reflexivity.
Qed.
End Phase_facts.

(** One uncoupled oscillator with natural frequency [1], in exact
    arithmetic. *)
Lemma kuramoto_step_single_oscillator :
  (Kuramoto.method (fun v s => Kuramoto.kuramoto v s [1%R] [0%R] [] [])
                   [0%R] 0%R Kuramoto.dt).1 !! 0
  = Some (0 + dec 5 1 * Kuramoto.dt * ((1 + 0 * 0) + (1 + 0 * 0)))%R.
Proof.
  exact (kuramoto_step_does_not_wrap [0%R] [1%R] [0%R] [] [] 0%R Kuramoto.dt 0
           0%R (1 + 0 * 0)%R (1 + 0 * 0)%R eq_refl eq_refl eq_refl).
Defined.

(** The claim as the specification words it fails for two coupled
    oscillators with equal phases just below [pi] and natural frequency
    [1/2], in exact arithmetic: one Heun step takes both phases above
    [pi]. *)
Lemma heun_phase_leaves_interval :
  Forall (fun phi => - PI < phi <= PI)%R [PI - 1 / 100; PI - 1 / 100]%R /\
  ~ Forall (fun phi => - PI < phi <= PI)%R
      (Kuramoto.method
         (fun v s => Kuramoto.kuramoto v s [1 / 2; 1 / 2]%R [1; 1]%R [1; 0] [0; 1])
         [PI - 1 / 100; PI - 1 / 100]%R 0%R Kuramoto.dt).1.
Proof.
  pose proof PI2_1 as Hpi.
  split.
  - apply Forall_cons; split; [lra|]. apply Forall_cons; split; [lra|].
    apply Forall_nil_2.
  - intros HF. apply Forall_cons_1 in HF as [[_ Hle] _].
    cbn in Hle.
    change (10 ^ Z.of_nat 1)%Z with 10%Z in Hle.
    change (10 ^ Z.of_nat 2)%Z with 100%Z in Hle.
    rewrite !Rminus_diag, sin_0 in Hle. lra.
Qed.

(** * Further properties of the two notebooks *)

(** ** [np.nonzero] as the drivers use it *)

Section Nonzero_edges.
Context {A : Type} `{Arith A}.

Lemma nonzero_zip (M : list (list A)) :
  zip (nonzero M).1 (nonzero M).2 = mjoin (imap nonzero_row M).
Proof. unfold nonzero. cbn [fst snd]. apply zip_fst_snd. Qed.

Lemma nonzero_elem (M : list (list A)) (i k : nat) :
  (i, k) ∈ mjoin (imap nonzero_row M) <->
  exists row x, M !! i = Some row /\ row !! k = Some x /\ num_nonzero x = true.
Proof.
  split.
  - intros He. apply list_elem_of_join in He as (l & He & Hl).
    apply elem_of_lookup_imap in Hl as (i' & row & Hl & Hrow). subst l.
    unfold nonzero_row in He.
    apply list_elem_of_fmap in He as ([k' x] & Heq & Hx).
    cbn in Heq. injection Heq as Hi Hk. subst i' k'.
    apply list_elem_of_filter in Hx as [Hnz Hx]. cbn in Hnz.
    apply elem_of_lookup_imap in Hx as (k'' & x' & Heq & Hx').
    injection Heq as Hk Hxx. subst k'' x'.
    by exists row, x.
  - intros (row & x & Hrow & Hx & Hnz).
    apply list_elem_of_join. exists (nonzero_row i row). split.
    + unfold nonzero_row. apply list_elem_of_fmap. exists (k, x).
      split; [done|]. apply list_elem_of_filter. split; [done|].
      apply elem_of_lookup_imap. by exists k, x.
    + apply elem_of_lookup_imap. by exists i, row.
Qed.

(** X1.  The edge list read off an adjacency matrix: the two index
    arrays are equally long, and [(i, k)] is an edge (target [i],
    source [k]) exactly when the entry in row [i], column [k] exists
    and is non-zero. *)
Theorem nonzero_edges (M : list (list A)) :
  length (nonzero M).1 = length (nonzero M).2 /\
  forall i k, (i, k) ∈ zip (nonzero M).1 (nonzero M).2 <->
    exists row x, M !! i = Some row /\ row !! k = Some x /\ num_nonzero x = true.
Proof.
  split.
  - unfold nonzero. cbn [fst snd]. by rewrite !length_fmap.
  - intros i k. rewrite nonzero_zip. apply nonzero_elem.
Qed.

(** For an [N] x [N] matrix every index of the edge list is a node. *)
Lemma nonzero_in_range (N : nat) (M : list (list A)) :
  square N M ->
  Forall (fun i => i < N) (nonzero M).1 /\ Forall (fun k => k < N) (nonzero M).2.
Proof.
  intros [Hlen Hrows].
  assert (forall i k, (i, k) ∈ mjoin (imap nonzero_row M) -> i < N /\ k < N) as Hin.
  { intros i k He. apply nonzero_elem in He as (row & x & Hrow & Hx & _).
    split.
    - apply lookup_lt_Some in Hrow. lia.
    - apply lookup_lt_Some in Hx.
      rewrite List.Forall_forall in Hrows.
      rewrite (Hrows row) in Hx; [done|].
      apply list_elem_of_In. by eapply list_elem_of_lookup_2. }
  unfold nonzero. cbn [fst snd]. split.
  - apply Forall_fmap, Forall_forall. intros [i k] He. by apply (Hin i k).
  - apply Forall_fmap, Forall_forall. intros [i k] He. by apply (Hin i k).
Qed.
End Nonzero_edges.

(** ** Shapes in the Rossler driver *)

Section Rossler_shapes.
Context {A : Type} `{Arith A} `{Libm A}.

Lemma gamma_length (N : nat) (A_adj : list (list A)) :
  length (Rossler.gamma N A_adj) = length A_adj.
Proof.
  unfold Rossler.gamma, Rossler.degrees, sum_axis1. array_lengths.
Qed.

Lemma piecewise_Rossler_shape (N : nat) (vars : Rossler.vars3 A) (t : A)
    (I : list A) (alpha beta R mu : A) (gamma : list A) :
  shape3 N vars -> length I = N -> length gamma = N ->
  shape3 N (Rossler.piecewise_Rossler vars t I alpha beta R mu gamma).
Proof.
  intros (Hx & Hy & Hz) HI Hg. unfold shape3, Rossler.piecewise_Rossler.
  cbn [Rossler.vx Rossler.vy Rossler.vz].
  repeat split; array_lengths.
Qed.

Lemma vars3_add_shape (N : nat) (u v : Rossler.vars3 A) :
  shape3 N u -> shape3 N v -> shape3 N (arr_add u v).
Proof.
  intros (Hx & Hy & Hz) (Hx' & Hy' & Hz'). unfold shape3.
  cbn [arr_add Rossler.vars3_ndarray Rossler.vx Rossler.vy Rossler.vz].
  repeat split; array_lengths.
Qed.

Lemma vars3_scale_shape (N : nat) (a : A) (v : Rossler.vars3 A) :
  shape3 N v -> shape3 N (arr_scale a v).
Proof.
  intros (Hx & Hy & Hz). unfold shape3.
  cbn [arr_scale Rossler.vars3_ndarray Rossler.vx Rossler.vy Rossler.vz].
  repeat split; array_lengths.
Qed.

Lemma RK4_shape (N : nat) (fun_ : Rossler.vars3 A -> A -> Rossler.vars3 A)
    (x0 : Rossler.vars3 A) (t dt : A) :
  (forall v s, shape3 N v -> shape3 N (fun_ v s)) ->
  shape3 N x0 -> shape3 N (RK4 fun_ x0 t dt).1.
Proof.
  intros Hf Hx. unfold RK4, bind, call, ret. cbn [fst].
  repeat (first [ apply vars3_add_shape | apply vars3_scale_shape | apply Hf
                | exact Hx ]).
Qed.

Lemma rk4_step_shape (N : nat) (A_adj : list (list A)) (Icoup : list A)
    (st : Rossler.state) :
  length A_adj = N -> length Icoup = N ->
  shape3 N (Rossler.vars_nodes st) ->
  shape3 N (Rossler.vars_nodes (Rossler.rk4_step N A_adj Icoup st)).
Proof.
  intros HA HI Hst. unfold Rossler.rk4_step. cbn [Rossler.vars_nodes].
  apply RK4_shape; [|exact Hst].
  intros v s Hv. apply piecewise_Rossler_shape; [done..|].
  by rewrite gamma_length.
Qed.

Lemma init_step_shape (N : nat) (A_adj : list (list A)) (st : Rossler.state) :
  length A_adj = N -> shape3 N (Rossler.vars_nodes st) ->
  shape3 N (Rossler.vars_nodes (Rossler.init_step N A_adj st)).
Proof.
  intros HA Hst. unfold Rossler.init_step.
  apply rk4_step_shape; [done| |done]. array_lengths.
Qed.

Lemma relax_step_shape (N : nat) (A_adj : list (list A)) (w : A)
    (st : Rossler.state) :
  square N A_adj -> shape3 N (Rossler.vars_nodes st) ->
  shape3 N (Rossler.vars_nodes (Rossler.relax_step N A_adj w st)).
Proof.
  intros Hsq Hst. unfold Rossler.relax_step.
  apply rk4_step_shape; [by destruct Hsq| |done].
  unfold Rossler.coupling_func.
  destruct Hst as (Hx & _). rewrite bincount_length; [done|].
  rewrite Hx. by apply nonzero_in_range.
Qed.

Lemma init_state_shape (N : nat) (A_adj : list (list A)) :
  length A_adj = N -> shape3 N (Rossler.vars_nodes (Rossler.init_state N A_adj)).
Proof.
  intros HA. unfold Rossler.init_state.
  apply (N.iter_invariant 10000 _ _ (fun st => shape3 N (Rossler.vars_nodes st))).
  - intros st Hst. by apply init_step_shape.
  - unfold shape3, Rossler.vars_nodes0, Rossler.x0, Rossler.y0, Rossler.z0.
    cbn [Rossler.vars_nodes Rossler.vx Rossler.vy Rossler.vz].
    repeat split; array_lengths.
Qed.

Lemma sweep_value_shape (N : nat) (A_adj : list (list A)) (w : A)
    (st : Rossler.state) :
  square N A_adj -> shape3 N (Rossler.vars_nodes st) ->
  shape3 N (Rossler.vars_nodes (Rossler.sp_relaxed (Rossler.sweep_value N A_adj w st)))
  /\ shape3 N (Rossler.vars_nodes (Rossler.sp_exit (Rossler.sweep_value N A_adj w st))).
Proof.
  intros Hsq Hst.
  assert (shape3 N (Rossler.vars_nodes
            (N.iter 10000 (Rossler.relax_step N A_adj w) st))) as Hrelaxed.
  { apply (N.iter_invariant 10000 _ _ (fun st => shape3 N (Rossler.vars_nodes st)));
      [|exact Hst].
    intros s Hs. by apply relax_step_shape. }
  assert (shape3 N (Rossler.vars_nodes
            (N.iter Rossler.cal_n (Rossler.accum_step N A_adj w)
               (N.iter 10000 (Rossler.relax_step N A_adj w) st, (#0)%num)).1))
    as Hexited.
  { apply (N.iter_invariant Rossler.cal_n _ _
             (fun sS => shape3 N (Rossler.vars_nodes sS.1))); [|exact Hrelaxed].
    intros [s S] Hs. unfold Rossler.accum_step. cbn [fst Rossler.vars_nodes].
    by apply relax_step_shape. }
  destruct (Rossler_sweep_value_steps N A_adj w st) as (_ & _ & Hrel & Hexit).
  revert Hrel Hexit. generalize (Rossler.sweep_value N A_adj w st).
  intros p Hrel Hexit. rewrite Hrel. split; [exact Hrelaxed|].
  rewrite <- Hexit in Hexited. exact Hexited.
Qed.

End Rossler_shapes.

(** ** The Kuramoto vector field *)

Section Kuramoto_field_facts.
Context {A : Type} `{Arith A} `{Libm A}.
Local Open Scope num_scope.

Lemma sin_currents_zip (vars : list A) (pre_ids post_ids : list nat) :
  length pre_ids = length post_ids ->
  zip post_ids (num_sin <$> vsub (take_ids vars pre_ids) (take_ids vars post_ids))
  = (fun e => (e.2, num_sin (vars !!! e.1 - vars !!! e.2))) <$> zip pre_ids post_ids.
Proof.
  revert post_ids. induction pre_ids as [|p pre IH]; intros [|q post] Hlen;
    simpl in *; try done.
  f_equal. apply IH. lia.
Qed.

Lemma kuramoto_lookup (vars : list A) (t : A) (omega c : list A)
    (pre_ids post_ids : list nat) (j : nat) (om cj : A) :
  length pre_ids = length post_ids ->
  j < length vars ->
  omega !! j = Some om -> c !! j = Some cj ->
  Kuramoto.kuramoto vars t omega c pre_ids post_ids !! j
  = Some (om + cj * fold_left num_add
                     ((fun e => num_sin (vars !!! e.1 - vars !!! e.2))
                        <$> filter (fun e => e.2 = j) (zip pre_ids post_ids)) #0).
Proof.
  intros Hlen Hj Hom Hc. unfold Kuramoto.kuramoto, vadd, vmul.
  rewrite lookup_zip_with, Hom. cbn [mbind option_bind].
  rewrite lookup_zip_with, Hc. cbn [mbind option_bind].
  rewrite bincount_lookup by done. cbn [mbind option_bind].
  rewrite sin_currents_zip by done.
  by rewrite (filter_currents (fun e => num_sin (vars !!! e.1 - vars !!! e.2))).
Qed.

(** X3.  For an edge list of two equally long index arrays, the
    Kuramoto field at node [j] is [omega[j] + c[j] * I], where [I] is
    the sum, accumulated from [0] in edge order, of
    [sin(vars[source] - vars[target])] over the edges that end at
    [j]. *)
Theorem kuramoto_at_node (vars : list A) (t : A) (omega c : list A)
    (pre_ids post_ids : list nat) (j : nat) (om cj : A) :
  length pre_ids = length post_ids ->
  j < length vars ->
  omega !! j = Some om -> c !! j = Some cj ->
  Kuramoto.kuramoto vars t omega c pre_ids post_ids !! j
  = Some (om + cj * fold_left num_add
                     ((fun e => num_sin (vars !!! e.1 - vars !!! e.2))
                        <$> filter (fun e => e.2 = j) (zip pre_ids post_ids)) #0).
Proof. apply kuramoto_lookup. Qed.
End Kuramoto_field_facts.

(** Two coupled oscillators in exact arithmetic: node [0] has the one
    incoming edge [1 -> 0]. *)
Lemma kuramoto_at_node_two_nodes :
  Kuramoto.kuramoto [0; 1]%R 0%R [2; 3]%R [5; 7]%R [1; 0] [0; 1] !! 0
  = Some (2 + 5 * (0 + sin (1 - 0)))%R.
Proof.
  exact (kuramoto_at_node [0; 1]%R 0%R [2; 3]%R [5; 7]%R [1; 0] [0; 1] 0 2%R 5%R
           eq_refl ltac:(repeat constructor) eq_refl eq_refl).
Defined.

(** ** Diffusive coupling at a synchronized state and without edges *)

Lemma fold_left_Rplus_zeros (l : list R) :
  Forall (fun x => x = 0%R) l -> fold_left Rplus l 0%R = 0%R.
Proof.
  induction 1 as [|x l -> _ IH]; [done|]. cbn. by rewrite Rplus_0_l.
Qed.

(** X8.  In exact arithmetic, when all nodes hold the same value the
    coupling input vanishes at every node, for every weight and every
    edge list over the nodes. *)
Theorem synchronized_state_is_uncoupled (N : nat) (x w : R)
    (pre_ids post_ids : list nat) :
  length pre_ids = length post_ids ->
  Forall (fun i => i < N) pre_ids ->
  Forall (fun i => i < N) post_ids ->
  Rossler.coupling_func (replicate N x) w pre_ids post_ids = zeros N.
Proof.
  intros Hlen Hpre Hpost. apply list_eq. intros j.
  unfold Rossler.coupling_func. rewrite length_replicate.
  destruct (decide (j < N)) as [Hj|Hj].
  - rewrite bincount_lookup by done. rewrite currents_zip by done.
    rewrite (filter_currents
               (fun e => w * (replicate N x !!! e.1 - replicate N x !!! e.2))%num).
    unfold zeros. rewrite lookup_replicate_2 by done. f_equal.
    apply fold_left_Rplus_zeros.
    apply Forall_fmap, Forall_forall. intros [p q] He.
    apply list_elem_of_filter in He as [_ He].
    apply elem_of_zip_l in He as Hp. apply elem_of_zip_r in He as Hq.
    rewrite List.Forall_forall in Hpre, Hpost.
    apply list_elem_of_In in Hp, Hq. apply Hpre in Hp. apply Hpost in Hq.
    cbn. rewrite !(list_lookup_total_correct _ _ x)
      by (by apply lookup_replicate_2).
    cbn. ring.
  - rewrite !lookup_ge_None_2; [done| |].
    + unfold zeros. rewrite length_replicate. lia.
    + rewrite bincount_length; [lia|done].
Qed.

(** A synchronized triangle. *)
Lemma synchronized_triangle_is_uncoupled :
  Rossler.coupling_func (replicate 3 2%R) 5%R [1; 2; 0; 2; 0; 1] [0; 0; 1; 1; 2; 2]
  = zeros 3.
Proof.
  apply synchronized_state_is_uncoupled;
    [reflexivity | repeat constructor | repeat constructor].
Defined.

(** Two loop bodies that agree on the states an invariant describes
    give the same result from such a state. *)
Lemma N_iter_ext_invariant {St : Type} (Inv : St -> Prop) (f g : St -> St)
    (n : N) (x : St) :
  (forall s, Inv s -> f s = g s) -> (forall s, Inv s -> Inv (f s)) -> Inv x ->
  N.iter n f x = N.iter n g x /\ Inv (N.iter n f x).
Proof.
  intros Hfg Hf Hx. induction n as [|n [IH1 IH2]] using N.peano_ind; [done|].
  rewrite !N.iter_succ. rewrite <- IH1. split; [by apply Hfg | by apply Hf].
Qed.

Section No_edges.
Context {A : Type} `{Arith A} `{Libm A}.

Lemma relax_step_no_edges (N : nat) (A_adj : list (list A)) (w : A)
    (st : Rossler.state) :
  Rossler.post_ids A_adj = [] ->
  shape3 N (Rossler.vars_nodes st) ->
  Rossler.relax_step N A_adj w st = Rossler.init_step N A_adj st.
Proof.
  intros Hpost (Hx & _). unfold Rossler.relax_step, Rossler.init_step.
  f_equal. unfold Rossler.coupling_func. rewrite Hpost, Hx. reflexivity.
Qed.

Lemma loops_no_edges (N : nat) (A_adj : list (list A)) (w w' : A)
    (st : Rossler.state) (n m : BinNums.N) (S0 : A) :
  square N A_adj -> Rossler.post_ids A_adj = [] ->
  shape3 N (Rossler.vars_nodes st) ->
  N.iter m (Rossler.accum_step N A_adj w)
         (N.iter n (Rossler.relax_step N A_adj w) st, S0)
  = N.iter m (Rossler.accum_step N A_adj w')
           (N.iter n (Rossler.relax_step N A_adj w') st, S0).
Proof.
  intros Hsq Hpost Hst.
  assert (forall v s, shape3 N (Rossler.vars_nodes s) ->
            Rossler.relax_step N A_adj v s = Rossler.init_step N A_adj s) as Hrel
    by (intros; by apply relax_step_no_edges).
  assert (forall v, N.iter n (Rossler.relax_step N A_adj v) st
                    = N.iter n (Rossler.init_step N A_adj) st
                    /\ shape3 N (Rossler.vars_nodes
                                   (N.iter n (Rossler.relax_step N A_adj v) st)))
    as Hrelaxed.
  { intros v.
    apply (N_iter_ext_invariant (fun s => shape3 N (Rossler.vars_nodes s)));
      [by apply Hrel | | done].
    intros s Hs. by apply relax_step_shape. }
  destruct (Hrelaxed w) as [E1 S1]. destruct (Hrelaxed w') as [E2 _].
  rewrite E1 in S1. rewrite E1, E2.
  apply (N_iter_ext_invariant (fun sS => shape3 N (Rossler.vars_nodes sS.1))).
  - intros [s S] Hs'. unfold Rossler.accum_step. cbn [fst snd] in *.
    rewrite !Hrel by exact Hs'. reflexivity.
  - intros [s S] Hs'. unfold Rossler.accum_step. cbn [fst Rossler.vars_nodes] in *.
    apply relax_step_shape; [exact Hsq | exact Hs'].
  - cbn [fst]. exact S1.
Qed.

Lemma sweep_value_no_edges (N : nat) (A_adj : list (list A)) (w w' : A)
    (st : Rossler.state) :
  square N A_adj -> Rossler.post_ids A_adj = [] ->
  shape3 N (Rossler.vars_nodes st) ->
  Rossler.sp_exit (Rossler.sweep_value N A_adj w st)
  = Rossler.sp_exit (Rossler.sweep_value N A_adj w' st) /\
  Rossler.sp_S (Rossler.sweep_value N A_adj w st)
  = Rossler.sp_S (Rossler.sweep_value N A_adj w' st).
Proof.
  intros Hsq Hpost Hst.
  pose proof (loops_no_edges N A_adj w w' st 10000 Rossler.cal_n (#0)%num
                Hsq Hpost Hst) as Hacc.
  destruct (Rossler_sweep_value_steps N A_adj w st) as (_ & _ & _ & He).
  destruct (Rossler_sweep_value_steps N A_adj w' st) as (_ & _ & _ & He').
  revert He He'. generalize (Rossler.sweep_value N A_adj w st).
  generalize (Rossler.sweep_value N A_adj w' st). intros p' p He He'.
  rewrite Hacc in He. rewrite <- He' in He.
  injection He as E1 E2. split; assumption.
Qed.

Lemma sweep_no_edges (N : nat) (A_adj : list (list A)) (ws ws' : list A)
    (st : Rossler.state) :
  square N A_adj -> Rossler.post_ids A_adj = [] ->
  shape3 N (Rossler.vars_nodes st) -> length ws = length ws' ->
  Rossler.sp_S <$> Rossler.sweep N A_adj st ws
  = Rossler.sp_S <$> Rossler.sweep N A_adj st ws'.
Proof.
  intros Hsq Hpost. revert ws' st.
  induction ws as [|w ws IH]; intros [|w' ws'] st Hst Hlen; try done.
  unfold Rossler.sweep in *. cbn [for_each fmap list_fmap].
  destruct (sweep_value_no_edges N A_adj w w' st Hsq Hpost Hst) as [He HS].
  destruct (sweep_value_shape N A_adj w st Hsq Hst) as [_ Hshape].
  revert He HS Hshape. generalize (Rossler.sweep_value N A_adj w st).
  generalize (Rossler.sweep_value N A_adj w' st). intros p' p He HS Hshape.
  rewrite HS, <- He. f_equal. apply IH; [done|]. simpl in Hlen. lia.
Qed.

(** X9.  For an [N] x [N] adjacency matrix without a non-zero entry
    the coupling input is zero whatever the weight, so the measures
    the Rossler driver returns do not depend on the coupling strengths,
    only on how many there are. *)
Theorem no_edges_measures_ignore_weights (N : nat) (A_adj : list (list A))
    (ws ws' : list A) :
  square N A_adj -> Rossler.post_ids A_adj = [] -> length ws = length ws' ->
  Rossler.net N A_adj ws = Rossler.net N A_adj ws'.
Proof.
  intros Hsq Hpost Hlen. unfold Rossler.net, Rossler.net_trace.
  apply sweep_no_edges; [done..| |done].
  apply init_state_shape. by destruct Hsq.
Qed.
End No_edges.

(** A single node in exact arithmetic. *)
Lemma no_edges_one_node :
  Rossler.net 1 [[0%R]] [1%R] = Rossler.net 1 [[0%R]] [2%R].
Proof.
  apply no_edges_measures_ignore_weights.
  - split; [reflexivity|]. by repeat constructor.
  - unfold Rossler.post_ids, nonzero, nonzero_row. cbn.
    destruct (Req_dec_T 0 0) as [_|Hne]; [reflexivity | by destruct Hne].
  - reflexivity.
Defined.

(** ** The integrators at rest *)

(** [Heun] on a one-dimensional array, entry by entry. *)
Lemma Heun_lookup `{Arith A} (fun_ : list A -> A -> list A) (x0 : list A)
    (t dt : A) (j : nat) (x k1 k2 : A) :
  x0 !! j = Some x ->
  fun_ x0 t !! j = Some k1 ->
  fun_ (vadd x0 (smul dt (fun_ x0 t))) (t + dt)%num !! j = Some k2 ->
  (Heun fun_ x0 t dt).1 !! j = Some (x + dec 5 1 * dt * (k1 + k2))%num.
Proof.
  intros Hx Hk1 Hk2. rewrite Heun_two_evaluations.
  cbn [fst arr_add arr_scale vec_ndarray].
  set (a := fun_ x0 t) in *.
  set (b := fun_ (vadd x0 (smul dt a)) (t + dt)%num) in *.
  unfold vadd, smul.
  rewrite lookup_zip_with, Hx. cbn [mbind option_bind].
  rewrite list_lookup_fmap, lookup_zip_with, Hk1. cbn [mbind option_bind].
  rewrite Hk2. reflexivity.
Qed.

Section Rest_and_drift.
Local Open Scope R_scope.

Lemma vadd_smul_zeros (x : list R) (a : R) :
  vadd x (smul a (zeros (length x))) = x.
Proof.
  induction x as [|x0 x IH]; [done|].
  cbn. f_equal; [ring | exact IH].
Qed.

Lemma vadd_zeros (n : nat) : vadd (zeros n) (zeros n) = (zeros n : list R).
Proof. induction n as [|n IH]; [done|]. cbn. f_equal; [ring | exact IH]. Qed.

Lemma smul_zeros (a : R) (n : nat) : smul a (zeros n) = zeros n.
Proof. induction n as [|n IH]; [done|]. cbn. f_equal; [ring | exact IH]. Qed.

Lemma zero_field_fixed (fun_ : list R -> R -> list R) (x0 : list R) (t dt : R) :
  (forall v s, length v = length x0 -> fun_ v s = zeros (length x0)) ->
  (RK4 fun_ x0 t dt).1 = x0 /\ (Heun fun_ x0 t dt).1 = x0.
Proof.
  intros Hf. unfold RK4, Heun, bind, call, ret.
  cbn [fst arr_add arr_scale vec_ndarray].
  repeat first [ rewrite (Hf x0) by done | rewrite vadd_smul_zeros
               | rewrite smul_zeros | rewrite vadd_zeros ].
  by split.
Qed.

(** X7.  In exact arithmetic, a vector field that is zero on arrays
    of as many entries as the state leaves the state exactly as it is
    under one step of either integrator, whatever the step size. *)
Theorem integrators_keep_rest_state (fun_ : list R -> R -> list R)
    (x0 : list R) (t dt : R) :
  (forall v s, length v = length x0 -> fun_ v s = zeros (length x0)) ->
  (RK4 fun_ x0 t dt).1 = x0 /\ (Heun fun_ x0 t dt).1 = x0.
Proof. apply zero_field_fixed. Qed.

(** The Kuramoto field with zero natural frequencies and zero weights
    is such a field. *)
Lemma kuramoto_zero_field (n : nat) (v : list R) (s : R)
    (pre_ids post_ids : list nat) :
  length v = n ->
  Kuramoto.kuramoto v s (zeros n) (zeros n) pre_ids post_ids = zeros n.
Proof.
  intros Hv. unfold Kuramoto.kuramoto. rewrite Hv.
  pose proof (bincount_fold_length
                (zip post_ids (num_sin <$> vsub (take_ids v pre_ids)
                                                (take_ids v post_ids)))) as Hlen.
  assert (n <= length (bincount post_ids
                         (num_sin <$> vsub (take_ids v pre_ids) (take_ids v post_ids))
                         n))%nat as Hn.
  { unfold bincount. rewrite Hlen. unfold zeros. rewrite length_replicate.
    destruct post_ids; lia. }
  revert Hn. generalize (bincount post_ids
                 (num_sin <$> vsub (take_ids v pre_ids) (take_ids v post_ids)) n).
  clear. induction n as [|n IH]; intros [|i l] Hn; cbn in Hn; try done; [lia|].
  cbn. f_equal; [ring | apply (IH l); lia].
Qed.

(** X14.  In exact arithmetic, Kuramoto oscillators with zero natural
    frequencies and zero weights stay where they are under one step of
    either integrator, for every edge list. *)
Theorem kuramoto_at_rest (vars : list R) (pre_ids post_ids : list nat) (t dt : R) :
  let field v s :=
    Kuramoto.kuramoto v s (zeros (length vars)) (zeros (length vars))
      pre_ids post_ids in
  (RK4 field vars t dt).1 = vars /\ (Kuramoto.method field vars t dt).1 = vars.
Proof.
  intros field. apply zero_field_fixed.
  intros v s Hv. by apply kuramoto_zero_field.
Qed.

End Rest_and_drift.

(** A zero field on two entries. *)
Lemma integrators_keep_rest_state_two :
  (RK4 (fun _ _ => zeros 2) [1; 2]%R 0%R 1%R).1 = [1; 2]%R /\
  (Heun (fun _ _ => zeros 2) [1; 2]%R 0%R 1%R).1 = [1; 2]%R.
Proof.
  apply integrators_keep_rest_state. intros v s _. reflexivity.
Defined.

(** ** An isolated node under the adaptive rule, in binary64 *)

Section Isolated_node_poisoned.
Context {libm : Libm float}.
Local Open Scope float_scope.

Lemma fadd_nan_r (x : float) : x + nan = nan.
Proof.
  apply Prim2SF_inj. rewrite add_spec.
  change (Prim2SF nan) with S754_nan.
  destruct (Prim2SF x); reflexivity.
Qed.

Lemma fadd_nan_l (x : float) : nan + x = nan.
Proof.
  apply Prim2SF_inj. rewrite add_spec.
  change (Prim2SF nan) with S754_nan. reflexivity.
Qed.

Lemma fmul_nan_r (x : float) : x * nan = nan.
Proof.
  apply Prim2SF_inj. rewrite mul_spec.
  change (Prim2SF nan) with S754_nan.
  destruct (Prim2SF x); reflexivity.
Qed.

Lemma fmul_nan_l (x : float) : nan * x = nan.
Proof.
  apply Prim2SF_inj. rewrite mul_spec.
  change (Prim2SF nan) with S754_nan. reflexivity.
Qed.

Lemma zero_row_isolated (A_adj : list (list float)) (j n : nat) :
  A_adj !! j = Some (replicate n 0) ->
  (j ∉ Kuramoto.post_ids A_adj) /\ Kuramoto.degrees A_adj !! j = Some 0.
Proof.
  intros Hrow. split.
  - intros Hin. apply nonzero_row_index in Hin as (row & x & Hrow' & Hx & Hnz).
    rewrite Hrow in Hrow'. injection Hrow' as <-.
    apply elem_of_replicate_inv in Hx as ->. discriminate Hnz.
  - unfold Kuramoto.degrees, sum_axis1.
    rewrite list_lookup_fmap, Hrow. cbn. by rewrite np_sum_zero_row.
Qed.

Lemma adaptive_step_isolated (N : nat) (A_adj : list (list float))
    (omega : list float) (idx : list nat) (w : float) (st : Kuramoto.state)
    (j n : nat) :
  A_adj !! j = Some (replicate n 0) ->
  j ∈ Kuramoto.Nodes_adaptive N idx ->
  is_Some (omega !! j) ->
  is_Some (Kuramoto.vars_nodes st !! j) ->
  (j < length (Kuramoto.weights st))%nat ->
  Kuramoto.vars_nodes (Kuramoto.adaptive_step N A_adj omega idx w st) !! j = Some nan
  /\ (j < length (Kuramoto.weights (Kuramoto.adaptive_step N A_adj omega idx w st)))%nat.
Proof.
  intros Hrow Hada [om Hom] [phi Hphi] Hw.
  destruct (zero_row_isolated A_adj j n Hrow) as [Hnot Hdeg].
  assert (j < length (Kuramoto.vars_nodes st))%nat as Hj
    by (by eapply lookup_lt_Some).
  unfold Kuramoto.adaptive_step.
  cbn [Kuramoto.vars_nodes Kuramoto.weights Kuramoto.t].
  set (r_local := Kuramoto.local_order_parameter (Kuramoto.vars_nodes st)
                    (Kuramoto.pre_ids A_adj) (Kuramoto.post_ids A_adj)
                    (Kuramoto.degrees A_adj)).
  assert (r_local !!! j = nan) as Hr.
  { apply list_lookup_total_correct.
    by apply local_order_parameter_zero_degree. }
  assert (smul w (take_ids r_local (Kuramoto.Nodes_adaptive N idx))
          = (fun i => w * r_local !!! i) <$> Kuramoto.Nodes_adaptive N idx) as ->
    by (unfold smul, take_ids; by rewrite <- list_fmap_compose).
  set (ws' := assign_ids (Kuramoto.weights st) (Kuramoto.Nodes_adaptive N idx) _).
  assert (ws' !! j = Some nan) as Hw'.
  { unfold ws'. rewrite assign_ids_lookup. rewrite decide_True by done.
    by rewrite Hr, fmul_nan_r. }
  split; [|unfold ws'; by rewrite assign_ids_length].
  assert (forall u s, (j < length u)%nat ->
            Kuramoto.kuramoto u s omega ws' (Kuramoto.pre_ids A_adj)
              (Kuramoto.post_ids A_adj) !! j = Some nan) as Hfield.
  { intros u s Hu. unfold Kuramoto.kuramoto, vadd, vmul.
    rewrite lookup_zip_with, Hom. cbn [mbind option_bind].
    rewrite lookup_zip_with, Hw'. cbn [mbind option_bind].
    rewrite bincount_lookup_none by done. cbn [mbind option_bind].
    cbn [num_add num_mul float_arith]. by rewrite fmul_nan_l, fadd_nan_r. }
  pose proof (Hfield (Kuramoto.vars_nodes st) (Kuramoto.t st) Hj) as Hk1.
  assert (j < length (vadd (Kuramoto.vars_nodes st) (smul Kuramoto.dt
               (Kuramoto.kuramoto (Kuramoto.vars_nodes st) (Kuramoto.t st) omega ws'
                  (Kuramoto.pre_ids A_adj) (Kuramoto.post_ids A_adj)))))%nat as Hjp.
  { apply lookup_lt_Some in Hk1. unfold vadd, smul.
    rewrite length_zip_with, length_fmap. lia. }
  pose proof (Hfield _ (Kuramoto.t st + Kuramoto.dt)%num Hjp) as Hk2.
  unfold Kuramoto.method.
  rewrite (Heun_lookup _ _ _ Kuramoto.dt j _ nan nan Hphi Hk1 Hk2).
  cbn [num_add num_mul float_arith]. by rewrite fadd_nan_l, fmul_nan_r, fadd_nan_r.
Qed.

(** X10.  In binary64, under the adaptive rule the phase of an
    adaptive node without incoming edges (a zero row of the adjacency
    matrix) is NaN after the first step of the loop and after every
    later step, for every coupling strength and every state the loop
    starts from. *)
Theorem isolated_node_phase_is_nan (N : nat) (A_adj : list (list float))
    (omega : list float) (idx : list nat) (w : float) (st : Kuramoto.state)
    (j n : nat) (steps : BinNums.N) :
  A_adj !! j = Some (replicate n 0) ->
  j ∈ Kuramoto.Nodes_adaptive N idx ->
  is_Some (omega !! j) ->
  is_Some (Kuramoto.vars_nodes st !! j) ->
  (j < length (Kuramoto.weights st))%nat ->
  Kuramoto.vars_nodes
    (N.iter (N.succ steps) (Kuramoto.adaptive_step N A_adj omega idx w) st) !! j
  = Some nan.
Proof.
  intros Hrow Hada Hom Hphi Hw.
  assert (Kuramoto.vars_nodes
            (N.iter (N.succ steps) (Kuramoto.adaptive_step N A_adj omega idx w) st) !! j
          = Some nan
          /\ (j < length (Kuramoto.weights
                 (N.iter (N.succ steps)
                    (Kuramoto.adaptive_step N A_adj omega idx w) st)))%nat)
    as [Hgoal _]; [|exact Hgoal].
  induction steps as [|k [IHv IHw]] using N.peano_ind.
  - change (N.succ 0) with 1%N. cbn [N.iter Pos.iter].
    by apply (adaptive_step_isolated N A_adj omega idx w st j n).
  - rewrite N.iter_succ.
    apply (adaptive_step_isolated N A_adj omega idx w _ j n); try done.
    all: by rewrite IHv.
Qed.
End Isolated_node_poisoned.

(** The isolated third node of [pair_and_isolated], ten steps. *)
Lemma isolated_node_phase_is_nan_example :
  ~ exists libm : Libm float,
      Kuramoto.vars_nodes
        (N.iter (N.succ 9)
           (Kuramoto.adaptive_step 3 pair_and_isolated [0; 0; 0]%float [0; 1; 2]
              0.5%float)
           (Kuramoto.State [0; 1; 2]%float [1; 1; 1]%float 0%float)) !! 2
      <> Some nan.
Proof.
  intros [libm Hne]. apply Hne.
  apply (isolated_node_phase_is_nan 3 pair_and_isolated [0; 0; 0]%float [0; 1; 2]
           0.5%float _ 2 3 9).
  - reflexivity.
  - vm_compute. right. right. left.
  - by eexists.
  - by eexists.
  - repeat constructor.
Defined.

(** ** Sweeps over a common prefix, and the two sweeps of [Parallel_net] *)

Section For_each_prefix.
Context {W S P : Type} (body : W -> S -> P) (next : P -> S).

Lemma for_each_app (s : S) (ws1 ws2 : list W) :
  for_each body next s (ws1 ++ ws2)
  = for_each body next s ws1
    ++ for_each body next (fold_left (fun s w => next (body w s)) ws1 s) ws2.
Proof.
  revert s. induction ws1 as [|w ws1 IH]; intros s; [done|].
  cbn [app for_each fold_left]. by rewrite IH.
Qed.

Lemma for_each_prefix (s : S) (ws1 ws2 : list W) :
  take (length ws1) (for_each body next s (ws1 ++ ws2)) = for_each body next s ws1.
Proof.
  rewrite for_each_app. rewrite take_app_length'; [done|].
  by rewrite for_each_length.
Qed.
End For_each_prefix.

Section Prefix.
Context {A : Type} `{Arith A} `{Libm A}.

Lemma Rossler_net_prefix (N : nat) (A_adj : list (list A)) (ws1 ws2 : list A) :
  take (length ws1) (Rossler.net N A_adj (ws1 ++ ws2)) = Rossler.net N A_adj ws1.
Proof.
  unfold Rossler.net, Rossler.net_trace, Rossler.sweep.
  rewrite <- fmap_take. by rewrite for_each_prefix.
Qed.

(** X12.  The measure a driver reports for a value depends only on the
    values up to and including it: a sweep over a list extended by
    further values begins with the measures of the sweep over the list
    itself.  This holds for both drivers. *)
Theorem measures_depend_on_earlier_values_only (N : nat) (A_adj : list (list A))
    (omega vars0 : list A) (idx : list nat) (ws1 ws2 : list A) :
  take (length ws1) (Rossler.net N A_adj (ws1 ++ ws2)) = Rossler.net N A_adj ws1 /\
  take (length ws1) (Kuramoto.net N A_adj omega vars0 idx (ws1 ++ ws2))
  = Kuramoto.net N A_adj omega vars0 idx ws1.
Proof.
  split; [apply Rossler_net_prefix|].
  unfold Kuramoto.net, Kuramoto.net_trace, Kuramoto.sweep.
  rewrite <- fmap_take. by rewrite for_each_prefix.
Qed.

Lemma Rossler_net_length (N : nat) (A_adj : list (list A)) (ws : list A) :
  length (Rossler.net N A_adj ws) = length ws.
Proof.
  unfold Rossler.net, Rossler.net_trace, Rossler.sweep.
  by rewrite length_fmap, for_each_length.
Qed.

(** X15.  Given two lists of the same length (and whatever follows
    them), [Parallel_net] returns two rows of that length: row [i] is
    the sweep of list [i] from the driver's initial state, so lists
    that begin with the same values give rows that begin with the same
    measures.  The rows are sized by the first list alone: a second
    list of one value has its single measure broadcast over the row,
    also over a row of no entries. *)
Theorem Parallel_net_rows (N : nat) (A_adj : list (list A))
    (ws0 ws1 : list A) (more : list (list A)) :
  (length ws1 = length ws0 ->
   Rossler.Parallel_net N A_adj (ws0 :: ws1 :: more)
   = Some [Rossler.net N A_adj ws0; Rossler.net N A_adj ws1] /\
   length (Rossler.net N A_adj ws0) = length ws0 /\
   length (Rossler.net N A_adj ws1) = length ws0 /\
   forall common rest0 rest1,
     ws0 = common ++ rest0 -> ws1 = common ++ rest1 ->
     take (length common) (Rossler.net N A_adj ws0)
     = take (length common) (Rossler.net N A_adj ws1)) /\
  (forall w, ws1 = [w] ->
   exists S, Rossler.net N A_adj ws1 = [S] /\
     Rossler.Parallel_net N A_adj (ws0 :: ws1 :: more)
     = Some [Rossler.net N A_adj ws0; replicate (length ws0) S]).
Proof.
  split.
  - intros Hlen. split; [|split; [|split]].
    + unfold Rossler.Parallel_net, Rossler.assign_row.
      cbn [lookup list_lookup mbind option_bind].
      rewrite !Rossler_net_length, Hlen.
      rewrite decide_True by done. cbn [mbind option_bind].
      by rewrite decide_True.
    + apply Rossler_net_length.
    + by rewrite Rossler_net_length.
    + intros common rest0 rest1 -> ->. by rewrite !Rossler_net_prefix.
  - intros w ->.
    exists (Rossler.sp_S (Rossler.sweep_value N A_adj w (Rossler.init_state N A_adj))).
    split; [reflexivity|].
    unfold Rossler.Parallel_net, Rossler.assign_row.
    cbn [lookup list_lookup mbind option_bind].
    rewrite (Rossler_net_length N A_adj ws0).
    destruct (decide (length ws0 = length ws0)) as [_|Hne]; [|done].
    cbn [mbind option_bind].
    rewrite (Rossler_net_length N A_adj [w]).
    destruct (decide (length [w] = length ws0)) as [Hl|Hl]; [|reflexivity].
    cbn [mbind option_bind]. do 2 f_equal.
    destruct ws0 as [|v [|v' ws0]]; try done.
Qed.
End Prefix.

(** Two sweeps of two values each, in exact arithmetic. *)
Lemma Parallel_net_two_values :
  Rossler.Parallel_net 1 [[0%R]] [[1; 2]%R; [2; 1]%R]
  = Some [Rossler.net 1 [[0%R]] [1; 2]%R; Rossler.net 1 [[0%R]] [2; 1]%R].
Proof.
  exact (proj1 (proj1 (Parallel_net_rows 1 [[0%R]] [1; 2]%R [2; 1]%R []) eq_refl)).
Defined.

(** ** The adaptive nodes *)

Lemma Sorted_seq (a n : nat) : Sorted Nat.le (seq a n).
Proof.
  revert a. induction n as [|n IH]; intros a; cbn; [constructor|].
  constructor; [apply IH|]. destruct n; cbn; constructor. lia.
Qed.

(** X13.  With [f_adaptive = 1] the adaptive nodes are all the nodes,
    in increasing order, whatever permutation the shuffle produced. *)
Theorem Nodes_adaptive_all (N : nat) (idx : list nat) :
  idx ≡ₚ seq 0 N -> Kuramoto.Nodes_adaptive N idx = seq 0 N.
Proof.
  intros Hperm. unfold Kuramoto.Nodes_adaptive, Kuramoto.N_adaptive.
  rewrite firstn_all2
    by (apply Permutation_length in Hperm; rewrite length_seq in Hperm; lia).
  apply (Sorted_unique Nat.le).
  - apply Sorted_merge_sort. intros x y. unfold Nat.le. lia.
  - apply Sorted_seq.
  - by rewrite merge_sort_Permutation.
Qed.

(** A shuffle of three nodes. *)
Lemma Nodes_adaptive_all_three : Kuramoto.Nodes_adaptive 3 [2; 0; 1] = [0; 1; 2].
Proof.
  apply (Nodes_adaptive_all 3 [2; 0; 1]).
  etransitivity; [apply perm_swap | apply perm_skip, perm_swap].
Defined.

(** ** The frequency scale, in exact arithmetic *)

Section Rossler_real.
Local Open Scope R_scope.

Lemma np_sum_nonneg (row : list R) (a : R) :
  Forall (fun x => 0 <= x) row -> 0 <= a -> 0 <= fold_left Rplus row a.
Proof.
  intros Hrow. revert a. induction Hrow as [|x row Hx _ IH]; intros a Ha; [done|].
  cbn. apply IH. lra.
Qed.

(** X16.  In exact arithmetic, for [N >= 1] and an adjacency matrix
    without negative entries, every node's frequency scale is
    [10000 * (1 + 0.2 * (degree - 1) / N)] with its row sum as degree,
    and it is positive, isolated nodes included. *)
Theorem gamma_positive (N : nat) (A_adj : list (list R)) (j : nat) (row : list R) :
  (1 <= N)%nat ->
  Forall (fun x => 0 <= x) row ->
  A_adj !! j = Some row ->
  Rossler.gamma N A_adj !! j
  = Some (10000 * (1 + 2 / 10 * (np_sum row - 1) / INR N)) /\
  0 < 10000 * (1 + 2 / 10 * (np_sum row - 1) / INR N).
Proof.
  intros HN Hrow Hj. split.
  - unfold Rossler.gamma, Rossler.degrees, sum_axis1, smul, sadd, vdivs, vsubs.
    rewrite !list_lookup_fmap, Hj. cbn. rewrite <- INR_IZR_INZ.
    change (10 ^ Z.of_nat 1)%Z with 10%Z. reflexivity.
  - assert (1 <= INR N) as Hn by (apply (le_INR 1); lia).
    assert (0 <= np_sum row) as Hs by (apply np_sum_nonneg; [done | cbn; lra]).
    assert (-1 <= (np_sum row - 1) / INR N) as Hq.
    { apply (Rmult_le_reg_r (INR N)); [lra|].
      unfold Rdiv. rewrite Rmult_assoc, Rinv_l by lra. nra. }
    lra.
Qed.

End Rossler_real.

(** The middle node of a three-node path. *)
Lemma gamma_positive_path :
  (0 < 10000 * (1 + 2 / 10 * (np_sum [1; 0; 1] - 1) / INR 3))%R.
Proof.
  refine (proj2 (gamma_positive 3 [[0; 1; 0]; [1; 0; 1]; [0; 1; 0]]%R 1 [1; 0; 1]%R
                   ltac:(repeat constructor) _ eq_refl)).
  repeat constructor; lra.
Defined.

(** ** A NaN entry of the Rossler state never recovers, in binary64 *)

Section NaN_absorbing.
Context {libm : Libm float}.

Lemma vars3_add_nan (N : nat) (u v : Rossler.vars3 float) (j : nat) :
  shape3 N u -> shape3 N v ->
  Rossler.vx u !! j = Some nan ->
  Rossler.vx (arr_add u v) !! j = Some nan.
Proof.
  intros (Hu & _) (Hv & _) Hnan.
  cbn [arr_add Rossler.vars3_ndarray Rossler.vx]. unfold vadd.
  rewrite lookup_zip_with, Hnan. cbn [mbind option_bind].
  destruct (Rossler.vx v !! j) as [y|] eqn:Hy.
  - cbn [mbind option_bind num_add float_arith]. by rewrite fadd_nan_l.
  - apply lookup_lt_Some in Hnan. apply lookup_ge_None in Hy. lia.
Qed.

Lemma RK4_keeps_nan (N : nat)
    (fun_ : Rossler.vars3 float -> float -> Rossler.vars3 float)
    (x0 : Rossler.vars3 float) (t dt : float) (j : nat) :
  (forall v s, shape3 N v -> shape3 N (fun_ v s)) ->
  shape3 N x0 ->
  Rossler.vx x0 !! j = Some nan ->
  Rossler.vx (RK4 fun_ x0 t dt).1 !! j = Some nan.
Proof.
  intros Hf Hx Hnan. unfold RK4, bind, call, ret. cbn [fst].
  apply (vars3_add_nan N); [exact Hx | | exact Hnan].
  repeat (first [ apply vars3_add_shape | apply vars3_scale_shape | apply Hf
                | exact Hx ]).
Qed.

Lemma relax_step_keeps_nan (N : nat) (A_adj : list (list float)) (w : float)
    (st : Rossler.state) (j : nat) :
  square N A_adj -> shape3 N (Rossler.vars_nodes st) ->
  Rossler.vx (Rossler.vars_nodes st) !! j = Some nan ->
  Rossler.vx (Rossler.vars_nodes (Rossler.relax_step N A_adj w st)) !! j = Some nan.
Proof.
  intros Hsq Hst Hnan. unfold Rossler.relax_step, Rossler.rk4_step.
  cbn [Rossler.vars_nodes].
  apply (RK4_keeps_nan N); [|exact Hst|exact Hnan].
  intros v s Hv. apply piecewise_Rossler_shape; [done| |].
  - unfold Rossler.coupling_func. destruct Hst as (Hx & _).
    rewrite bincount_length; [done|]. rewrite Hx. by apply nonzero_in_range.
  - rewrite gamma_length. by destruct Hsq.
Qed.

(** X18.  In binary64, for an [N] x [N] adjacency matrix, once the
    first state component of a node is NaN it is NaN after every
    further step of the relaxation loop and of the accumulation loop,
    for every coupling strength. *)
Theorem nan_never_recovers (N : nat) (A_adj : list (list float)) (w S0 : float)
    (st : Rossler.state) (j : nat) (n : BinNums.N) :
  square N A_adj -> shape3 N (Rossler.vars_nodes st) ->
  Rossler.vx (Rossler.vars_nodes st) !! j = Some nan ->
  Rossler.vx (Rossler.vars_nodes (N.iter n (Rossler.relax_step N A_adj w) st)) !! j
  = Some nan /\
  Rossler.vx (Rossler.vars_nodes
                (N.iter n (Rossler.accum_step N A_adj w) (st, S0)).1) !! j
  = Some nan.
Proof.
  intros Hsq Hst Hnan. split.
  - apply (N.iter_invariant n _ _
             (fun s => shape3 N (Rossler.vars_nodes s)
                       /\ Rossler.vx (Rossler.vars_nodes s) !! j = Some nan));
      [|by split].
    intros s [Hs Hn]. split; [by apply relax_step_shape|].
    by apply relax_step_keeps_nan.
  - apply (N.iter_invariant n _ _
             (fun sS => shape3 N (Rossler.vars_nodes sS.1)
                        /\ Rossler.vx (Rossler.vars_nodes sS.1) !! j = Some nan));
      [|by split].
    intros [s S] [Hs Hn]. unfold Rossler.accum_step.
    cbn [fst Rossler.vars_nodes] in *.
    split; [by apply relax_step_shape|]. by apply relax_step_keeps_nan.
Qed.
End NaN_absorbing.

(** A NaN in node 0 of the path [0 - 1 - 2], after 100 steps of the
    accumulation loop, whatever the transcendental functions are. *)
Lemma nan_never_recovers_path :
  ~ exists libm : Libm float,
      Rossler.vx (Rossler.vars_nodes
                    (N.iter 100 (Rossler.accum_step 3 path3 0.5%float)
                       (Rossler.State
                          (Rossler.Vars3 [nan; 1; 2] [0; 0; 0] [0; 0; 0])%float
                          0%float, 0%float)).1) !! 0
      <> Some nan.
Proof.
  intros [libm Hne]. apply Hne.
  refine (proj2 (nan_never_recovers 3 path3 0.5%float 0%float
                   (Rossler.State
                      (Rossler.Vars3 [nan; 1; 2] [0; 0; 0] [0; 0; 0])%float
                      0%float) 0 100 _ _ eq_refl)).
  - split; [reflexivity|]. by repeat constructor.
  - by repeat split.
Defined.

(** ** The measures in binary64

    The order parameter is the [hypot] of two quotients and the measure
    a running sum of such values divided by [cal_n]; the code clamps
    neither and tests neither.  Of the C library only this is used
    below: its functions return NaN at NaN. *)

Section Measure_binary64.
Context {libm : Libm float}.
Local Open Scope float_scope.

Hypothesis cos_nan : num_cos nan = nan.
Hypothesis sin_nan : num_sin nan = nan.
Hypothesis hypot_nan : num_hypot nan nan = nan.

Lemma fdiv_nan_l (x : float) : nan / x = nan.
Proof.
  apply Prim2SF_inj. rewrite div_spec.
  change (Prim2SF nan) with S754_nan. reflexivity.
Qed.

Lemma fdiv_nan_r (x : float) : x / nan = nan.
Proof.
  apply Prim2SF_inj. rewrite div_spec.
  change (Prim2SF nan) with S754_nan.
  destruct (Prim2SF x); reflexivity.
Qed.

Lemma csum_from_nan (l : list (complex float)) :
  fold_left cadd l (Complex nan nan) = Complex nan nan.
Proof.
  induction l as [|a l IH]; [done|].
  cbn [fold_left]. unfold cadd at 2. cbn [re im num_add float_arith].
  by rewrite !fadd_nan_l.
Qed.

Lemma csum_nan (l : list (complex float)) (j : nat) (c : complex float) :
  l !! j = Some (Complex nan nan) -> fold_left cadd l c = Complex nan nan.
Proof.
  revert j c. induction l as [|a l IH]; intros [|j] c Hj; try done.
  - injection Hj as ->. cbn [fold_left]. unfold cadd at 2.
    cbn [re im num_add float_arith]. rewrite !fadd_nan_r. apply csum_from_nan.
  - cbn [fold_left]. by apply (IH j).
Qed.

(** A NaN among the phases makes the mean phasor, and its modulus,
    NaN, whatever it is divided by. *)
Lemma mean_phasor_nan (phis : list float) (j : nat) (d : float) :
  phis !! j = Some nan -> cabs (cdivr (csum (cexpi <$> phis)) d) = nan.
Proof using cos_nan sin_nan hypot_nan.
  intros Hj. unfold csum.
  rewrite (csum_nan _ j).
  - unfold cabs, cdivr. cbn [re im num_div float_arith].
    by rewrite fdiv_nan_l.
  - rewrite list_lookup_fmap, Hj. cbn. unfold cexpi. by rewrite cos_nan, sin_nan.
Qed.

Lemma order_parameter_nan_phase (vars : list float) (j : nat) :
  vars !! j = Some nan -> Kuramoto.order_parameter vars = nan.
Proof using cos_nan sin_nan hypot_nan.
  intros Hj. unfold Kuramoto.order_parameter. by apply (mean_phasor_nan _ j).
Qed.

(** *** The Rossler driver *)

Hypothesis arctan2_nan : forall y : float, num_arctan2 y nan = nan.

Lemma Rossler_relax_loop_nan (N : nat) (A_adj : list (list float)) (w : float)
    (st : Rossler.state) (j : nat) (n : BinNums.N) :
  square N A_adj -> shape3 N (Rossler.vars_nodes st) ->
  Rossler.vx (Rossler.vars_nodes st) !! j = Some nan ->
  shape3 N (Rossler.vars_nodes (N.iter n (Rossler.relax_step N A_adj w) st)) /\
  Rossler.vx (Rossler.vars_nodes (N.iter n (Rossler.relax_step N A_adj w) st)) !! j
  = Some nan.
Proof using Type.
  intros Hsq Hst Hnan.
  apply (N.iter_invariant n _ _
           (fun s => shape3 N (Rossler.vars_nodes s)
                     /\ Rossler.vx (Rossler.vars_nodes s) !! j = Some nan));
    [|by split].
  intros s [Hs Hn]. split; [by apply relax_step_shape|].
  by apply relax_step_keeps_nan.
Qed.

Lemma Rossler_accum_step_nan (N : nat) (A_adj : list (list float)) (w S : float)
    (st : Rossler.state) (j : nat) :
  square N A_adj -> shape3 N (Rossler.vars_nodes st) ->
  Rossler.vx (Rossler.vars_nodes st) !! j = Some nan ->
  shape3 N (Rossler.vars_nodes (Rossler.accum_step N A_adj w (st, S)).1) /\
  Rossler.vx (Rossler.vars_nodes (Rossler.accum_step N A_adj w (st, S)).1) !! j
  = Some nan /\
  (Rossler.accum_step N A_adj w (st, S)).2 = nan.
Proof using cos_nan sin_nan hypot_nan arctan2_nan.
  intros Hsq Hst Hnan. unfold Rossler.accum_step.
  cbn [fst snd Rossler.vars_nodes].
  pose proof (relax_step_shape N A_adj w st Hsq Hst) as Hst'.
  pose proof (relax_step_keeps_nan N A_adj w st j Hsq Hst Hnan) as Hnan'.
  split; [exact Hst'|]. split; [exact Hnan'|].
  set (st' := Rossler.relax_step N A_adj w st) in *.
  destruct Hst' as (Hx & Hy & _).
  assert (is_Some (Rossler.vy (Rossler.vars_nodes st') !! j)) as [y Hyj].
  { apply lookup_lt_is_Some. apply lookup_lt_Some in Hnan'. lia. }
  rewrite (mean_phasor_nan _ j).
  - cbn [num_add num_div float_arith]. by rewrite fdiv_nan_l, fadd_nan_r.
  - rewrite lookup_zip_with, Hyj. cbn [mbind option_bind].
    rewrite Hnan'. cbn [mbind option_bind]. by rewrite arctan2_nan.
Qed.

Lemma Rossler_accum_loop_nan (N : nat) (A_adj : list (list float)) (w S0 : float)
    (st : Rossler.state) (j : nat) (n : BinNums.N) :
  n <> 0%N ->
  square N A_adj -> shape3 N (Rossler.vars_nodes st) ->
  Rossler.vx (Rossler.vars_nodes st) !! j = Some nan ->
  shape3 N (Rossler.vars_nodes (N.iter n (Rossler.accum_step N A_adj w) (st, S0)).1) /\
  Rossler.vx (Rossler.vars_nodes
                (N.iter n (Rossler.accum_step N A_adj w) (st, S0)).1) !! j
  = Some nan /\
  (N.iter n (Rossler.accum_step N A_adj w) (st, S0)).2 = nan.
Proof using cos_nan sin_nan hypot_nan arctan2_nan.
  intros Hn Hsq Hst Hnan.
  rewrite <- (N.succ_pred n Hn). generalize (N.pred n). clear Hn.
  intros m. induction m as [|m (IHs & IHn & _)] using N.peano_ind.
  - change (N.succ 0) with 1%N. cbn [N.iter Pos.iter].
    by apply Rossler_accum_step_nan.
  - rewrite N.iter_succ.
    destruct (N.iter (N.succ m) (Rossler.accum_step N A_adj w) (st, S0)) as [s S].
    by apply Rossler_accum_step_nan.
Qed.

Lemma Rossler_sweep_value_nan (N : nat) (A_adj : list (list float)) (w : float)
    (st : Rossler.state) (j : nat) :
  square N A_adj -> shape3 N (Rossler.vars_nodes st) ->
  Rossler.vx (Rossler.vars_nodes
                (Rossler.sp_relaxed (Rossler.sweep_value N A_adj w st))) !! j
  = Some nan ->
  shape3 N (Rossler.vars_nodes (Rossler.sp_exit (Rossler.sweep_value N A_adj w st))) /\
  Rossler.vx (Rossler.vars_nodes
                (Rossler.sp_exit (Rossler.sweep_value N A_adj w st))) !! j
  = Some nan /\
  Rossler.sp_S (Rossler.sweep_value N A_adj w st) = nan.
Proof using cos_nan sin_nan hypot_nan arctan2_nan.
  intros Hsq Hst.
  destruct (sweep_value_shape N A_adj w st Hsq Hst) as [Hsh _].
  destruct (Rossler_sweep_value_steps N A_adj w st) as (_ & _ & Hrel & Hexit).
  revert Hsh Hrel Hexit. generalize (Rossler.sweep_value N A_adj w st).
  intros p Hsh Hrel Hexit Hnan.
  assert (Rossler.cal_n <> 0%N) as Hc by (unfold Rossler.cal_n; lia).
  pose proof (Rossler_accum_loop_nan N A_adj w (#0)%num (Rossler.sp_relaxed p) j
                Rossler.cal_n Hc Hsq Hsh Hnan) as Hloop.
  rewrite <- Hrel in Hexit. revert Hloop. rewrite <- Hexit.
  cbn [fst snd]. intros Hloop. exact Hloop.
Qed.

Lemma Rossler_sweep_nan (N : nat) (A_adj : list (list float))
    (st : Rossler.state) (weight_list : list float) (j : nat) :
  square N A_adj -> shape3 N (Rossler.vars_nodes st) ->
  Rossler.vx (Rossler.vars_nodes st) !! j = Some nan ->
  Forall (fun p => Rossler.sp_S p = nan) (Rossler.sweep N A_adj st weight_list).
Proof using cos_nan sin_nan hypot_nan arctan2_nan.
  intros Hsq Hst Hnan. unfold Rossler.sweep.
  apply (for_each_invariant _ _
           (fun s => shape3 N (Rossler.vars_nodes s)
                     /\ Rossler.vx (Rossler.vars_nodes s) !! j = Some nan));
    [|by split].
  intros w s [Hs Hn].
  destruct (Rossler_relax_loop_nan N A_adj w s j 10000 Hsq Hs Hn) as [_ Hrelaxed].
  assert (Rossler.vx (Rossler.vars_nodes
                        (Rossler.sp_relaxed (Rossler.sweep_value N A_adj w s))) !! j
          = Some nan) as Hrelaxed'.
  { destruct (Rossler_sweep_value_steps N A_adj w s) as (_ & _ & Hrel & _).
    revert Hrel. generalize (Rossler.sweep_value N A_adj w s).
    intros p Hrel. rewrite Hrel. exact Hrelaxed. }
  destruct (Rossler_sweep_value_nan N A_adj w s j Hsq Hs Hrelaxed') as (He & Hen & HS).
  revert He Hen HS. generalize (Rossler.sweep_value N A_adj w s).
  intros p He Hen HS. split; [exact HS | split; [exact He | exact Hen]].
Qed.
End Measure_binary64.

(** C4, as the code has it.  In binary64 neither the order parameter
    nor the measure is kept in [[0, 1]]: with a C library that returns
    NaN at NaN, a NaN among the phases makes the global order parameter
    NaN; in the Rossler driver a NaN first component of some node after
    the relaxation loop of a value makes the measure reported for that
    value NaN, and a NaN first component on entry to the loop over the
    values makes every reported measure NaN. *)
Theorem nan_phase_gives_nan_measure (libm : Libm float) :
  num_cos nan = nan -> num_sin nan = nan -> num_hypot nan nan = nan ->
  (forall y : float, num_arctan2 y nan = nan) ->
  (forall (vars : list float) (j : nat),
     vars !! j = Some nan -> Kuramoto.order_parameter vars = nan) /\
  (forall (N : nat) (A_adj : list (list float)) (weight : float)
          (st : Rossler.state) (j : nat),
     square N A_adj -> shape3 N (Rossler.vars_nodes st) ->
     Rossler.vx (Rossler.vars_nodes
                   (Rossler.sp_relaxed (Rossler.sweep_value N A_adj weight st))) !! j
     = Some nan ->
     Rossler.sp_S (Rossler.sweep_value N A_adj weight st) = nan) /\
  (forall (N : nat) (A_adj : list (list float)) (st : Rossler.state)
          (weight_list : list float) (j : nat),
     square N A_adj -> shape3 N (Rossler.vars_nodes st) ->
     Rossler.vx (Rossler.vars_nodes st) !! j = Some nan ->
     Forall (fun p => Rossler.sp_S p = nan) (Rossler.sweep N A_adj st weight_list)).
Proof.
  intros Hcos Hsin Hhypot Hatan. split; [|split].
  - intros vars j. by apply order_parameter_nan_phase.
  - intros N A_adj weight st j Hsq Hst Hnan.
    by destruct (Rossler_sweep_value_nan Hcos Hsin Hhypot Hatan N A_adj weight st j
                   Hsq Hst Hnan) as (_ & _ & HS).
  - intros N A_adj st weight_list j. by apply Rossler_sweep_nan.
Qed.

(** The relaxed state of the path [0 - 1 - 2] under the strength
    [100]. *)
Lemma path3_relaxed_nan (libm : Libm float) :
  Rossler.vx (Rossler.vars_nodes
                (Rossler.sp_relaxed
                   (Rossler.sweep_value 3 path3 100%float
                      (Rossler.init_state 3 path3)))) !! 0
  = Some nan.
Proof.
  destruct (Rossler_sweep_value_steps 3 path3 100%float (Rossler.init_state 3 path3))
    as (_ & _ & Hrel & _).
  revert Hrel. generalize (Rossler.sweep_value 3 path3 100%float
                             (Rossler.init_state 3 path3)).
  intros p Hrel. rewrite Hrel, path3_relaxed. reflexivity.
Qed.

Lemma square_path3 : square 3 path3.
Proof. split; [reflexivity|]. by repeat constructor. Qed.

(** The path [0 - 1 - 2] with the strength [100]: the driver returns
    NaN.  The library functions are here the first terms of their
    series, which are NaN at NaN as the real ones are. *)
Lemma nan_measure_on_path :
  exists libm : Libm float,
    (num_cos nan = nan /\ num_sin nan = nan /\ num_hypot nan nan = nan /\
     forall y : float, num_arctan2 y nan = nan) /\
    Rossler.net 3 path3 [100%float] = [nan].
Proof.
  pose (libm := {| num_cos x := (1 - x * x / 2)%float;
                   num_sin x := (x - x * x * x / 6)%float;
                   num_arctan2 y x := (y / x)%float;
                   num_hypot x y := PrimFloat.sqrt (x * x + y * y) |} : Libm float).
  exists libm.
  assert (forall y : float, num_arctan2 y nan = nan) as Hatan
    by (intros y; apply fdiv_nan_r).
  split; [by repeat split|].
  destruct (nan_phase_gives_nan_measure libm eq_refl eq_refl eq_refl Hatan)
    as (_ & Hvalue & _).
  change (Rossler.net 3 path3 [100%float])
    with [Rossler.sp_S (Rossler.sweep_value 3 path3 100%float
                          (Rossler.init_state 3 path3))].
  rewrite (Hvalue 3 path3 100%float (Rossler.init_state 3 path3) 0 square_path3
             (init_state_shape 3 path3 eq_refl) (path3_relaxed_nan libm)).
  reflexivity.
Defined.

(** The claim as the specification words it fails in binary64.  Three
    equal phases [1.9551699418765942], with the values the C library
    returns for their cosine and sine and for the modulus of the mean:
    the order parameter is [1 + 2^-52].  And on the path [0 - 1 - 2]
    with the strength [100] the measure returned is NaN, which is
    neither at least [0] nor at most [1]. *)
Lemma measure_outside_unit_interval :
  (forall libm : Libm float,
     num_cos 0x1.f486046e7b71p+0%float = (-0x1.7ffa5f359fffdp-2)%float ->
     num_sin 0x1.f486046e7b71p+0%float = 0x1.daa422623d1bap-1%float ->
     num_hypot (-0x1.7ffa5f359fffdp-2)%float 0x1.daa422623d1bbp-1%float
     = 0x1.0000000000001p+0%float ->
     Kuramoto.order_parameter (replicate 3 0x1.f486046e7b71p+0%float)
     = 0x1.0000000000001p+0%float) /\
  (0x1.0000000000001p+0 <=? 1)%float = false /\
  (forall libm : Libm float,
     num_cos nan = nan -> num_sin nan = nan -> num_hypot nan nan = nan ->
     (forall y : float, num_arctan2 y nan = nan) ->
     Rossler.net 3 path3 [100%float] = [nan]) /\
  (0 <=? nan)%float = false /\ (nan <=? 1)%float = false.
Proof.
  split; [|split; [reflexivity|split; [|by split]]].
  - intros libm Hcos Hsin Hhypot.
    unfold Kuramoto.order_parameter, cabs, cdivr, csum, cexpi.
    cbn [replicate fmap list_fmap fold_left cadd re im length].
    rewrite Hcos, Hsin. exact Hhypot.
  - intros libm Hcos Hsin Hhypot Hatan.
    change (Rossler.net 3 path3 [100%float])
      with [Rossler.sp_S (Rossler.sweep_value 3 path3 100%float
                            (Rossler.init_state 3 path3))].
    destruct (Rossler_sweep_value_nan Hcos Hsin Hhypot Hatan 3 path3 100%float
                (Rossler.init_state 3 path3) 0 square_path3
                (init_state_shape 3 path3 eq_refl) (path3_relaxed_nan libm))
      as (_ & _ & HS).
    rewrite HS. reflexivity.
Qed.

(** ** The measure of the adaptive Kuramoto driver with an isolated node *)

Section Isolated_node_measure.
Context {libm : Libm float}.
Context (N : nat) (A_adj : list (list float)) (omega : list float)
        (idx : list nat) (j n : nat).
Local Open Scope float_scope.

Hypothesis cos_nan : num_cos nan = nan.
Hypothesis sin_nan : num_sin nan = nan.
Hypothesis hypot_nan : num_hypot nan nan = nan.
Hypothesis zero_row : A_adj !! j = Some (replicate n 0).
Hypothesis adaptive : j ∈ Kuramoto.Nodes_adaptive N idx.
Hypothesis has_omega : is_Some (omega !! j).

(** What every step keeps: node [j] has a phase and a weight. *)
Local Notation node_present st :=
  (is_Some (Kuramoto.vars_nodes (A:=float) st !! j)
   /\ (j < length (Kuramoto.weights st))%nat).

Lemma adaptive_step_present (w : float) (st : Kuramoto.state) :
  node_present st ->
  node_present (Kuramoto.adaptive_step N A_adj omega idx w st).
Proof using zero_row adaptive has_omega.
  intros [Hphi Hw].
  destruct (adaptive_step_isolated N A_adj omega idx w st j n
              zero_row adaptive has_omega Hphi Hw) as [Hnan Hw'].
  split; [by rewrite Hnan | exact Hw'].
Qed.

Lemma Kuramoto_accum_step_nan (w r : float) (st : Kuramoto.state) :
  node_present st ->
  node_present (Kuramoto.accum_step N A_adj omega idx w (st, r)).1 /\
  (Kuramoto.accum_step N A_adj omega idx w (st, r)).2 = nan.
Proof using All.
  intros [Hphi Hw].
  destruct (adaptive_step_isolated N A_adj omega idx w st j n
              zero_row adaptive has_omega Hphi Hw) as [Hnan Hw'].
  unfold Kuramoto.accum_step.
  cbn [fst snd Kuramoto.vars_nodes Kuramoto.weights].
  split; [split; [by rewrite Hnan | exact Hw']|].
  rewrite (order_parameter_nan_phase cos_nan sin_nan hypot_nan _ j Hnan).
  cbn [num_add num_div float_arith]. by rewrite fdiv_nan_l, fadd_nan_r.
Qed.

Lemma Kuramoto_accum_loop_nan (w r0 : float) (st : Kuramoto.state)
    (steps : BinNums.N) :
  steps <> 0%N -> node_present st ->
  node_present (N.iter steps (Kuramoto.accum_step N A_adj omega idx w) (st, r0)).1 /\
  (N.iter steps (Kuramoto.accum_step N A_adj omega idx w) (st, r0)).2 = nan.
Proof using All.
  intros Hn Hst.
  rewrite <- (N.succ_pred steps Hn). generalize (N.pred steps). clear Hn.
  intros m. induction m as [|m [IH _]] using N.peano_ind.
  - change (N.succ 0) with 1%N. cbn [N.iter Pos.iter].
    by apply Kuramoto_accum_step_nan.
  - rewrite N.iter_succ.
    destruct (N.iter (N.succ m) (Kuramoto.accum_step N A_adj omega idx w) (st, r0))
      as [s r].
    by apply Kuramoto_accum_step_nan.
Qed.

Lemma Kuramoto_sweep_value_nan (w : float) (vars : list float) :
  (j < N)%nat -> is_Some (vars !! j) ->
  is_Some (Kuramoto.vars_nodes
             (Kuramoto.sp_exit (Kuramoto.sweep_value N A_adj omega idx w vars)) !! j)
  /\ Kuramoto.sp_r (Kuramoto.sweep_value N A_adj omega idx w vars) = nan.
Proof using All.
  intros Hj Hvars.
  assert (node_present
            (N.iter 20000 (Kuramoto.adaptive_step N A_adj omega idx w)
                    (Kuramoto.State vars (smul w (ones N)) (#0)%num))) as Hrelaxed.
  { apply (N.iter_invariant 20000 _ _ (fun s => node_present s)).
    - intros s Hs. by apply adaptive_step_present.
    - split; [exact Hvars|]. cbn [Kuramoto.weights]. array_lengths. }
  assert (Kuramoto.cal_n <> 0%N) as Hc by (unfold Kuramoto.cal_n; lia).
  pose proof (Kuramoto_accum_loop_nan w (#0)%num _ Kuramoto.cal_n Hc Hrelaxed)
    as Hloop.
  destruct (Kuramoto_sweep_value_steps N A_adj omega idx w vars)
    as (_ & _ & _ & Hexit).
  revert Hexit Hloop. generalize (Kuramoto.sweep_value N A_adj omega idx w vars).
  intros p Hexit. rewrite <- Hexit. cbn [fst snd].
  intros [[Hphi _] Hr]. by split.
Qed.

Lemma Kuramoto_sweep_nan (vars : list float) (w_list : list float) :
  (j < N)%nat -> is_Some (vars !! j) ->
  Forall (fun p => Kuramoto.sp_r p = nan)
         (Kuramoto.sweep N A_adj omega idx vars w_list).
Proof using All.
  intros Hj Hvars. unfold Kuramoto.sweep.
  apply (for_each_invariant _ _ (fun v => is_Some (v !! j))); [|exact Hvars].
  intros w v Hv.
  destruct (Kuramoto_sweep_value_nan w v Hj Hv) as [Hexit Hr].
  revert Hexit Hr. generalize (Kuramoto.sweep_value N A_adj omega idx w v).
  intros p Hexit Hr. split; [exact Hr | exact Hexit].
Qed.
End Isolated_node_measure.

(** X19.  In binary64, with a C library that returns NaN at NaN: when
    an adaptive node has no incoming edge (a zero row of the adjacency
    matrix), every measure the adaptive Kuramoto driver returns is NaN,
    for every list of coupling strengths, all natural frequencies and
    all initial phases. *)
Theorem isolated_node_measures_are_nan (libm : Libm float) (N : nat)
    (A_adj : list (list float)) (omega vars_nodes0 : list float) (idx : list nat)
    (w_list : list float) (j n : nat) :
  num_cos nan = nan -> num_sin nan = nan -> num_hypot nan nan = nan ->
  A_adj !! j = Some (replicate n 0%float) ->
  j ∈ Kuramoto.Nodes_adaptive N idx ->
  (j < N)%nat -> is_Some (omega !! j) -> is_Some (vars_nodes0 !! j) ->
  Kuramoto.net N A_adj omega vars_nodes0 idx w_list
  = replicate (length w_list) nan.
Proof.
  intros Hcos Hsin Hhypot Hrow Hada Hj Hom Hvars.
  pose proof (Kuramoto_sweep_nan N A_adj omega idx j n Hcos Hsin Hhypot Hrow Hada Hom
                vars_nodes0 w_list Hj Hvars) as Hall.
  unfold Kuramoto.net, Kuramoto.net_trace.
  rewrite <- (for_each_length (Kuramoto.sweep_value N A_adj omega idx)
                (fun p => Kuramoto.vars_nodes (Kuramoto.sp_exit p)) vars_nodes0 w_list).
  fold (Kuramoto.sweep N A_adj omega idx vars_nodes0 w_list).
  induction Hall as [|p ps Hp _ IH]; [reflexivity|].
  cbn [fmap list_fmap length replicate]. by rewrite Hp, IH.
Qed.

(** Two coupled oscillators and an isolated third one, three coupling
    strengths; the library functions are the first terms of their
    series. *)
Lemma isolated_node_measures_example :
  exists libm : Libm float,
    Kuramoto.net 3 pair_and_isolated [0; 0; 0]%float [0; 1; 2]%float [0; 1; 2]
                 [0.5; 1; 1.5]%float
    = [nan; nan; nan].
Proof.
  pose (libm := {| num_cos x := (1 - x * x / 2)%float;
                   num_sin x := (x - x * x * x / 6)%float;
                   num_arctan2 y x := (y / x)%float;
                   num_hypot x y := PrimFloat.sqrt (x * x + y * y) |} : Libm float).
  exists libm.
  apply (isolated_node_measures_are_nan libm 3 pair_and_isolated [0; 0; 0]%float
           [0; 1; 2]%float [0; 1; 2] [0.5; 1; 1.5]%float 2 3).
  - reflexivity.
  - reflexivity.
  - reflexivity.
  - reflexivity.
  - vm_compute. right. right. left.
  - repeat constructor.
  - by eexists.
  - by eexists.
Defined.
